(** * Balance reconciliation of the splits SDK

    A shallow embedding of the balance helpers of the SDK: the token
    metadata resolver [fetchTokenData], the multicall call builders, the
    two batch response reducers, the three balance-fetch operations and
    the two merge functions, followed by the properties proved of them.

    JavaScript objects used as dictionaries are [gmap string _]; bigint is
    [Z]; a value that may be [undefined] is an [option]; a function that
    may throw returns an [outcome]. *)

From Stdlib Require Import ZArith String Ascii List Lia Permutation.
From stdpp Require Import base option gmap strings list fin_maps.

Local Open Scope string_scope.
Local Open Scope Z_scope.
Local Open Scope list_scope.

(** ** Exceptions *)

Inductive exn :=
| TypeError            (* reading a property of, or destructuring, undefined *)
| SyntaxError          (* BigInt() of a string that is not an integer literal *)
| InvalidAddressError  (* viem's getAddress on a malformed address *)
| Error (message : string)
| TransportError.      (* a request of the chain client that was rejected *)

Inductive outcome (A : Type) :=
| Ok (a : A)
| Throw (e : exn).
Arguments Ok {A} a.
Arguments Throw {A} e.

#[global] Instance outcome_ret : MRet outcome := fun A a => Ok a.

#[global] Instance outcome_bind : MBind outcome := fun A B k m =>
  match m with
  | Ok a => k a
  | Throw e => Throw e
  end.

#[global] Instance outcome_fmap : FMap outcome := fun A B f m =>
  match m with
  | Ok a => Ok (f a)
  | Throw e => Throw e
  end.

(** ** viem: the zero address and [getAddress]

    [getAddress] is viem's: it rejects a string that is not "0x" followed by
    forty hexadecimal digits and otherwise returns the EIP-55 checksummed
    spelling, in which the hexadecimal digit at position i is upper case
    exactly when nibble i of the Keccak-256 hash of the lower-case digits
    is at least 8. *)

Module Viem.

Definition zeroAddress : string := "0x0000000000000000000000000000000000000000".

(** Keccak-f[1600] on 25 lanes of 64 bits, lane (x, y) at position x + 5y. *)

Definition lane_mask : Z := Z.ones 64.

Definition rol (w : Z) (n : Z) : Z :=
  Z.land (Z.lor (Z.shiftl w n) (Z.shiftr w (64 - n))) lane_mask.

Definition lane (st : list Z) (i : nat) : Z := nth i st 0.

Definition rotation_offsets : list Z :=
  [ 0;  1; 62; 28; 27;
   36; 44;  6; 55; 20;
    3; 10; 43; 25; 39;
   41; 45; 15; 21;  8;
   18;  2; 61; 56; 14].

Definition round_constants : list Z :=
  [0x0000000000000001; 0x0000000000008082; 0x800000000000808A;
   0x8000000080008000; 0x000000000000808B; 0x0000000080000001;
   0x8000000080008081; 0x8000000000008009; 0x000000000000008A;
   0x0000000000000088; 0x0000000080008009; 0x000000008000000A;
   0x000000008000808B; 0x800000000000008B; 0x8000000000008089;
   0x8000000000008003; 0x8000000000008002; 0x8000000000000080;
   0x000000000000800A; 0x800000008000000A; 0x8000000080008081;
   0x8000000000008080; 0x0000000080000001; 0x8000000080008008].

Definition theta (st : list Z) : list Z :=
  let c x := Z.lxor (lane st x) (Z.lxor (lane st (x + 5)) (Z.lxor (lane st (x + 10))
               (Z.lxor (lane st (x + 15)) (lane st (x + 20))))) in
  let d x := Z.lxor (c ((x + 4) mod 5)%nat) (rol (c ((x + 1) mod 5)%nat) 1) in
  map (fun i => Z.lxor (lane st i) (d (i mod 5)%nat)) (seq 0 25).

Definition rho_pi (st : list Z) : list Z :=
  map (fun j =>
         let X := (j mod 5)%nat in
         let Y := (j / 5)%nat in
         let src := (((X + 3 * Y) mod 5) + 5 * X)%nat in
         rol (lane st src) (nth src rotation_offsets 0))
      (seq 0 25).

Definition chi (st : list Z) : list Z :=
  map (fun j =>
         let x := (j mod 5)%nat in
         let y := (j / 5)%nat in
         let b k := lane st (((x + k) mod 5) + 5 * y)%nat in
         Z.lxor (b 0%nat) (Z.land (Z.lxor (b 1%nat) lane_mask) (b 2%nat)))
      (seq 0 25).

Definition iota (rc : Z) (st : list Z) : list Z :=
  match st with
  | [] => []
  | a :: rest => Z.lxor a rc :: rest
  end.

Definition keccak_round (st : list Z) (rc : Z) : list Z :=
  iota rc (chi (rho_pi (theta st))).

Definition keccak_f (st : list Z) : list Z :=
  fold_left keccak_round round_constants st.

(** Sponge with rate 136 bytes and the Keccak padding 0x01 .. 0x80. *)

Definition rate : nat := 136.

Definition pad (msg : list Z) : list Z :=
  let q := (rate - (length msg mod rate))%nat in
  match q with
  | 1%nat => msg ++ [0x81]
  | _ => msg ++ [0x01] ++ repeat 0 (q - 2) ++ [0x80]
  end.

Fixpoint le_word (bytes : list Z) : Z :=
  match bytes with
  | [] => 0
  | b :: rest => Z.lor b (Z.shiftl (le_word rest) 8)
  end.

Fixpoint words_of (n : nat) (bytes : list Z) : list Z :=
  match n with
  | O => []
  | S n' => le_word (firstn 8 bytes) :: words_of n' (skipn 8 bytes)
  end.

Definition absorb_block (st : list Z) (block : list Z) : list Z :=
  let ws := words_of 17 block in
  keccak_f (map (fun i => Z.lxor (lane st i) (nth i ws 0)) (seq 0 25)).

Fixpoint absorb (blocks : nat) (st : list Z) (bytes : list Z) : list Z :=
  match blocks with
  | O => st
  | S n => absorb n (absorb_block st (firstn rate bytes)) (skipn rate bytes)
  end.

Definition word_bytes (w : Z) : list Z :=
  map (fun i => Z.land (Z.shiftr w (8 * Z.of_nat i)) 255) (seq 0 8).

Definition keccak256 (msg : list Z) : list Z :=
  let padded := pad msg in
  let st := absorb (length padded / rate) (repeat 0 25) padded in
  flat_map word_bytes (firstn 4 st).

(** Characters. *)

Definition code (c : ascii) : Z := Z.of_N (N_of_ascii c).

Definition isDigit (c : ascii) : bool := (48 <=? code c) && (code c <=? 57).
Definition isLowerHex (c : ascii) : bool := (97 <=? code c) && (code c <=? 102).
Definition isUpperHex (c : ascii) : bool := (65 <=? code c) && (code c <=? 70).
Definition isHexDigit (c : ascii) : bool := isDigit c || isLowerHex c || isUpperHex c.

Definition toLowerCase (c : ascii) : ascii :=
  if (65 <=? code c) && (code c <=? 90) then ascii_of_N (N_of_ascii c + 32) else c.

Definition toUpperCase (c : ascii) : ascii :=
  if (97 <=? code c) && (code c <=? 122) then ascii_of_N (N_of_ascii c - 32) else c.

(** [isAddress]: the regular expression ^0x[a-fA-F0-9]{40}$. *)
Definition isAddress (address : string) : bool :=
  match list_ascii_of_string address with
  | c0 :: c1 :: digits =>
      Ascii.eqb c0 "0" && Ascii.eqb c1 "x" &&
      (length digits =? 40)%nat && forallb isHexDigit digits
  | _ => false
  end.

Definition nibbles (bytes : list Z) : list Z :=
  flat_map (fun b => [Z.shiftr b 4; Z.land b 15]) bytes.

(** [checksumAddress]: upper-case digit i when nibble i of the hash is 8 or more. *)
Fixpoint checksumDigits (digits : list ascii) (hash : list Z) : list ascii :=
  match digits, hash with
  | c :: digits', h :: hash' =>
      (if 8 <=? h then toUpperCase c else c) :: checksumDigits digits' hash'
  | _, _ => digits
  end.

Definition checksumAddress (address : string) : string :=
  let hexAddress := map toLowerCase (skipn 2 (list_ascii_of_string address)) in
  let hash := keccak256 (map code hexAddress) in
  string_of_list_ascii ("0"%char :: "x"%char :: checksumDigits hexAddress (nibbles hash)).

Definition getAddress (address : string) : outcome string :=
  if isAddress address then Ok (checksumAddress address) else Throw InvalidAddressError.

End Viem.

Import Viem.

(** ** JavaScript helpers *)

(** [array[index]] followed by a property read: undefined has no properties. *)
Definition element {A} (array : list A) (index : nat) : outcome A :=
  match array !! index with
  | Some x => Ok x
  | None => Throw TypeError
  end.

(** [array.map((x, index) => ...)] used for its effect on an accumulator that
    the callback mutates; a callback that throws aborts the traversal. *)
Fixpoint forEachIndexed {A St} (callback : A → nat → St → outcome St)
    (array : list A) (index : nat) (acc : St) : outcome St :=
  match array with
  | [] => Ok acc
  | x :: rest =>
      acc' ← callback x index acc;
      forEachIndexed callback rest (S index) acc'
  end.

(** [array.map(f)] for an [f] that may throw. *)
Fixpoint mapThrowing {A B} (f : A → outcome B) (array : list A) : outcome (list B) :=
  match array with
  | [] => Ok []
  | x :: rest =>
      y ← f x;
      ys ← mapThrowing f rest;
      Ok (y :: ys)
  end.

Fixpoint dropWhile {A} (p : A → bool) (l : list A) : list A :=
  match l with
  | [] => []
  | x :: rest => if p x then dropWhile p rest else l
  end.

(** [BigInt(string)]: StringToBigInt on ASCII input. White space is trimmed,
    the empty string is 0n, the prefixes 0x, 0o and 0b select the radix, and
    only a decimal literal may carry a sign. *)
Definition isWhiteSpace (c : ascii) : bool :=
  ((9 <=? code c) && (code c <=? 13)) || (code c =? 32).

Definition trim (cs : list ascii) : list ascii :=
  rev (dropWhile isWhiteSpace (rev (dropWhile isWhiteSpace cs))).

Definition digitValue (c : ascii) : option Z :=
  if isDigit c then Some (code c - 48)
  else if isLowerHex c then Some (code c - 87)
  else if isUpperHex c then Some (code c - 55)
  else None.

Fixpoint parseDigits (radix acc : Z) (cs : list ascii) : option Z :=
  match cs with
  | [] => Some acc
  | c :: rest =>
      match digitValue c with
      | Some d => if d <? radix then parseDigits radix (acc * radix + d) rest else None
      | None => None
      end
  end.

Definition parseLiteral (radix : Z) (cs : list ascii) : option Z :=
  match cs with
  | [] => None
  | _ => parseDigits radix 0 cs
  end.

Definition StringToBigInt (s : string) : option Z :=
  match trim (list_ascii_of_string s) with
  | [] => Some 0
  | "0"%char :: "x"%char :: ds | "0"%char :: "X"%char :: ds => parseLiteral 16 ds
  | "0"%char :: "o"%char :: ds | "0"%char :: "O"%char :: ds => parseLiteral 8 ds
  | "0"%char :: "b"%char :: ds | "0"%char :: "B"%char :: ds => parseLiteral 2 ds
  | "-"%char :: ds => Z.opp <$> parseLiteral 10 ds
  | "+"%char :: ds => parseLiteral 10 ds
  | cs => parseLiteral 10 cs
  end.

Definition BigInt (s : string) : outcome Z :=
  match StringToBigInt s with
  | Some n => Ok n
  | None => Throw SyntaxError
  end.

(** ** Data model *)

(** constants: [ZERO = BigInt(0)]. *)
Definition ZERO : Z := 0.

(** types: [Token], with optional symbol and decimals. The fields [symbol] and
    [decimals] are called [tokenSymbol] and [tokenDecimals] here, the plain
    names being the balance entry's. *)
Record Token := {
  address : string;
  tokenSymbol : option string;
  tokenDecimals : option Z
}.

(** [TokenData = { [address: string]: Token }]. *)
Abbreviation TokenData := (gmap string Token).

(** An entry of [FormattedTokenBalances]. *)
Record FormattedTokenBalance := {
  rawAmount : Z;
  formattedAmount : string;
  symbol : string;
  decimals : Z
}.

Abbreviation FormattedTokenBalances := (gmap string FormattedTokenBalance).

(** An entry of the subgraph's [IBalance]. *)
Record Balance := {
  amount : Z;
  balanceSymbol : string;
  balanceDecimals : Z
}.

Abbreviation IBalance := (gmap string Balance).

(** A decoded multicall result has type unknown in the source and is read
    through a type assertion at each use. [value] lists the shapes the ABIs
    of the calls built below decode to (an array being a tuple of bigints,
    any of which may be missing); an assertion reads a result of its own
    shape and sees anything else as undefined. *)
Inductive value :=
| VString (s : string)
| VNumber (n : Z)
| VBigInt (n : Z)
| VArray (elements : list (option Z)).

Record MulticallResult := { result : option value }.

Definition asString (v : option value) : option string :=
  match v with Some (VString s) => Some s | _ => None end.

Definition asNumber (v : option value) : option Z :=
  match v with Some (VNumber n) => Some n | _ => None end.

Definition asBigint (v : option value) : option Z :=
  match v with Some (VBigInt n) => Some n | _ => None end.

Definition asArray (v : option value) : option (list (option Z)) :=
  match v with Some (VArray elements) => Some elements | _ => None end.

Inductive Abi := erc20Abi | ethBalanceAbi | splitMainPolygonAbi | splitV2ABI.

(** A contract call descriptor; [target] is its [address] field. *)
Record ContractCall := {
  target : string;
  abi : Abi;
  functionName : string;
  args : list string
}.

(** One page of alchemy_getTokenBalances. *)
Record TokenBalance := {
  contractAddress : string;
  tokenBalance : string
}.

Record TokenBalances := {
  tokenBalances : list TokenBalance;
  pageKey : option string
}.

(** The chain client. [multicall] answers a list of calls; [getBalance] and
    [alchemy_getTokenBalances] stand for the two requests that
    fetchContractBalancesWithAlchemy sends through
    retryExponentialBackoff(_, _, 3), and give what the wrapper settles with.
    The token balance request also receives the number of such requests
    answered before it, so that the pages may form any sequence. *)
Record SplitsPublicClient := {
  isAlchemyPublicClient : bool;
  multicall : list ContractCall → outcome (list MulticallResult);
  getBalance : string → outcome Z;
  alchemy_getTokenBalances : nat → string → option string → outcome TokenBalances
}.

Inductive SplitType := splitV1 | splitV2.

(** constants: an entry of [CHAIN_INFO]. *)
Record NativeCurrency := { currencySymbol : string }.
Record ChainInfo := { startBlock : Z; nativeCurrency : NativeCurrency }.

(** The requests fetchContractBalancesWithAlchemy sends, in the order in which
    it creates them. *)
Inductive Request :=
| TokenBalancesRequest (address : string) (pageKey : option string)
| NativeBalanceRequest (address : string).

(** ** lodash: [mergeWith(object, ...sources, customizer)]

    For a customizer that never returns undefined: each source in turn, each
    key of the source in turn, [object[key] = customizer(object[key],
    source[key])]. *)
Definition mergeWith {V} (object : gmap string V) (sources : list (gmap string V))
    (customizer : option V → V → V) : gmap string V :=
  foldl (fun object source =>
           map_fold (fun key srcValue object =>
                       <[key := customizer (object !! key) srcValue]> object)
                    object source)
        object sources.

(** The decimal digits of a natural number, most significant first. *)
Fixpoint decimalDigits (fuel : nat) (n : Z) (acc : list ascii) : list ascii :=
  match fuel with
  | O => acc
  | S fuel' =>
      let acc' := ascii_of_N (Z.to_N (48 + n mod 10)) :: acc in
      if n / 10 =? 0 then acc' else decimalDigits fuel' (n / 10) acc'
  end.

Definition decimalString (n : Z) : list ascii :=
  decimalDigits (S (Z.to_nat (Z.log2 n))) n [].

Definition dropTrailingZeros (cs : list ascii) : list ascii :=
  rev (dropWhile (fun c => code c =? 48) (rev cs)).

(** Modelled from the spec: [fromBigIntToTokenValue] (utils/index) is not among
    the sources; the spec has formattedAmount as "the decimal-string rendering
    of rawAmount / 10^decimals". The reducers and merges below take the
    formatter as a parameter; this rendering, which drops the zeros that end
    the fraction, serves the worked examples. *)
Definition decimalRendering (rawAmount decimals : Z) : string :=
  let digits := decimalString (Z.abs rawAmount) in
  let places := Z.to_nat decimals in
  let padded := (repeat "0"%char (places - length digits) ++ digits)%list in
  let integer := firstn (length padded - places) padded in
  let fraction := dropTrailingZeros (skipn (length padded - places) padded) in
  string_of_list_ascii
    ((if rawAmount <? 0 then ["-"%char] else []) ++
     (match integer with [] => ["0"%char] | _ => integer end) ++
     (match fraction with [] => [] | _ => "."%char :: fraction end))%list.

(** ** Sample data for the worked examples

    Two token contracts, a table of chains, and a client whose chain knows
    DAI in full and USDC without its decimals. As on a chain, the client
    does not tell the spellings of an address apart. *)

Definition DAI : string := "0x6B175474E89094C44Da98b954EedeAC495271d0F".
Definition USDC : string := "0xA0b86991c6218b36c1d19D4a2e9Eb0cE3606eB48".

Definition lowerCase (s : string) : string :=
  string_of_list_ascii (map toLowerCase (list_ascii_of_string s)).

Definition sampleChains (chainId : Z) : option ChainInfo :=
  if chainId =? 1 then
    Some {| startBlock := 0; nativeCurrency := {| currencySymbol := "ETH" |} |}
  else if chainId =? 137 then
    Some {| startBlock := 0; nativeCurrency := {| currencySymbol := "MATIC" |} |}
  else None.

Definition sampleTokenData : TokenData :=
  {[ DAI := {| address := DAI; tokenSymbol := Some "DAI"; tokenDecimals := Some 18 |} ]}.

Definition bigintResult (n : Z) : MulticallResult := {| result := Some (VBigInt n) |}.
Definition pairResult (onContract inWarehouse : Z) : MulticallResult :=
  {| result := Some (VArray [Some onContract; Some inWarehouse]) |}.
Definition failedResult : MulticallResult := {| result := None |}.

Definition sampleAnswer (call : ContractCall) : MulticallResult :=
  let contract := lowerCase (target call) in
  let name := functionName call in
  {| result :=
       if String.eqb contract (lowerCase DAI) then
         if String.eqb name "symbol" then Some (VString "DAI")
         else if String.eqb name "decimals" then Some (VNumber 18)
         else if String.eqb name "balanceOf" then Some (VBigInt 2500000000000000000)
         else None
       else if String.eqb contract (lowerCase USDC) then
         if String.eqb name "symbol" then Some (VString "USDC")
         else if String.eqb name "balanceOf" then Some (VBigInt 1000000)
         else None
       else if String.eqb name "getEthBalance" then Some (VBigInt 1000000000000000000)
       else if String.eqb name "getERC20Balance" then Some (VBigInt 400)
       else None |}.

(** Three pages: no tokens and a cursor, DAI and a cursor, USDC and the end. *)
Definition firstPage : TokenBalances :=
  {| tokenBalances := []; pageKey := Some "cursorA" |}.

Definition secondPage : TokenBalances :=
  {| tokenBalances := [ {| contractAddress := lowerCase DAI;
                           tokenBalance := "0x22b1c8c1227a0000" |} ];
     pageKey := Some "cursorB" |}.

Definition lastPage : TokenBalances :=
  {| tokenBalances := [ {| contractAddress := lowerCase USDC;
                           tokenBalance := "0xf4240" |} ];
     pageKey := Some "" |}.

Definition samplePages : list TokenBalances := [firstPage; secondPage; lastPage].

Definition sampleClient : SplitsPublicClient :=
  {| isAlchemyPublicClient := true;
     multicall := fun calls => Ok (map sampleAnswer calls);
     getBalance := fun _ => Ok 1000000000000000000;
     alchemy_getTokenBalances := fun served _ _ =>
       match samplePages !! served with
       | Some page => Ok page
       | None => Throw TransportError
       end |}.

Definition sampleSplitMain (chainId : Z) : string :=
  "0x2ed6c4B5dA6378c7897AC67Ba9e43102Feb694EE".
Definition sampleNativeToken : string := "0xEeeeeEeeeEeEeeEeEeEeeEEEeeeeEeeeeeeeEEeE".

Definition sampleAccount : string := "0x5aAeb6053F3E94C9b9A09f33669435E7Ef1BeAed".

Definition nativeBalance (symbol : string) : FormattedTokenBalance :=
  {| rawAmount := 1000000000000000000;
     formattedAmount := "1";
     symbol := symbol;
     decimals := 18 |}.

Definition daiBalance (rawAmount : Z) : FormattedTokenBalance :=
  {| rawAmount := rawAmount;
     formattedAmount := decimalRendering rawAmount 18;
     symbol := "DAI";
     decimals := 18 |}.

(** ** The balance helpers *)

Section Balances.

(** Parts of the repository that the file imports and that are not among the
    sources: the formatter (utils/index) and three constants. *)
Variable fromBigIntToTokenValue : Z → Z → string.
Variable CHAIN_INFO : Z → option ChainInfo.
Variable getSplitMainAddress : Z → string.
Variable NATIVE_TOKEN_ADDRESS : string.

(** [CHAIN_INFO[chainId]?.nativeCurrency.symbol ?? 'ETH'] *)
Definition nativeCurrencySymbol (chainId : Z) : string :=
  match CHAIN_INFO chainId with
  | Some info => currencySymbol (nativeCurrency info)
  | None => "ETH"
  end.

(** *** Call builders *)

Definition getTokenBalanceCalls (accountAddress : string) (tokenList : list string)
    : list ContractCall :=
  map (fun token =>
         if decide (token = zeroAddress) then
           {| target := "0xcA11bde05977b3631167028862bE2a173976CA11";
              abi := ethBalanceAbi;
              functionName := "getEthBalance";
              args := [accountAddress] |}
         else
           {| target := token;
              abi := erc20Abi;
              functionName := "balanceOf";
              args := [accountAddress] |})
      tokenList.

Definition getSplitTokenBalanceCalls (type : SplitType) (chainId : Z)
    (splitAddress : string) (tokenList : list string) : list ContractCall :=
  map (fun token =>
         match type with
         | splitV1 =>
             if decide (token = zeroAddress) then
               {| target := getSplitMainAddress chainId;
                  abi := splitMainPolygonAbi;
                  functionName := "getETHBalance";
                  args := [splitAddress] |}
             else
               {| target := getSplitMainAddress chainId;
                  abi := splitMainPolygonAbi;
                  functionName := "getERC20Balance";
                  args := [splitAddress; token] |}
         | splitV2 =>
             {| target := splitAddress;
                abi := splitV2ABI;
                functionName := "getSplitBalance";
                args := [if decide (token = zeroAddress)
                         then NATIVE_TOKEN_ADDRESS else token] |}
         end)
      tokenList.

Definition getTokenDataCalls (tokens : list string) : outcome (list ContractCall) :=
  calls ← mapThrowing
             (fun token =>
                if decide (token = zeroAddress) then
                  Throw (Error "Cannot fetch data for address zero")
                else
                  Ok [ {| target := token; abi := erc20Abi;
                          functionName := "symbol"; args := [] |};
                       {| target := token; abi := erc20Abi;
                          functionName := "decimals"; args := [] |} ])
             tokens;
  Ok (concat calls).

(** *** Token metadata resolver *)

(** The callback of [filteredTokens.map] in fetchTokenData. *)
Definition tokenDataCallback (multicallResponse : list MulticallResult)
    (token : string) (index : nat) (tokenData : TokenData) : outcome TokenData :=
  symbolData ← element multicallResponse (index * 2);
  decimalsData ← element multicallResponse (index * 2 + 1);
  match asString (result symbolData), asNumber (result decimalsData) with
  | Some symbol, Some decimals =>
      Ok (<[token := {| address := token;
                        tokenSymbol := Some symbol;
                        tokenDecimals := Some decimals |}]> tokenData)
  | _, _ => Ok tokenData
  end.

Definition fetchTokenData (tokens : list string) (publicClient : SplitsPublicClient)
    : outcome TokenData :=
  let filteredTokens := filter (fun token => token ≠ zeroAddress) tokens in
  contractCalls ← getTokenDataCalls filteredTokens;
  multicallResponse ← multicall publicClient contractCalls;
  forEachIndexed (tokenDataCallback multicallResponse) filteredTokens 0%nat ∅.

(** *** Batch response reducers

    Both reducers write into the [balances] object they are given; here they
    return the object as it is afterwards. *)

(** The callback of [fullTokenList.map] in processBalanceMulticallResponse. *)
Definition balanceCallback (chainId : Z) (tokenData : TokenData)
    (multicallResponse : list MulticallResult)
    (token : string) (index : nat) (balances : FormattedTokenBalances)
    : outcome FormattedTokenBalances :=
  data ← element multicallResponse index;
  match asBigint (result data) with
  | None => Ok balances
  | Some balance =>
      if decide (token = zeroAddress) then
        let decimals := 18 in
        let symbol := nativeCurrencySymbol chainId in
        let formattedAmount := fromBigIntToTokenValue balance decimals in
        Ok (<[zeroAddress := {| rawAmount := balance;
                                formattedAmount := formattedAmount;
                                symbol := symbol;
                                decimals := decimals |}]> balances)
      else
        match tokenData !! token with
        | None => Ok balances (* Unable to fetch token data *)
        | Some data =>
            match tokenSymbol data, tokenDecimals data with
            | Some symbol, Some decimals =>
                let formattedAmount := fromBigIntToTokenValue balance decimals in
                Ok (<[token := {| rawAmount := balance;
                                  formattedAmount := formattedAmount;
                                  symbol := symbol;
                                  decimals := decimals |}]> balances)
            | _, _ => Ok balances (* ignore non erc20 *)
            end
        end
  end.

Definition processBalanceMulticallResponse (chainId : Z) (fullTokenList : list string)
    (tokenData : TokenData) (multicallResponse : list MulticallResult)
    (balances : FormattedTokenBalances) : outcome FormattedTokenBalances :=
  forEachIndexed (balanceCallback chainId tokenData multicallResponse)
    fullTokenList 0%nat balances.

(** The callback of the split reducer leaves through one of three doors. *)
Inductive completion (A : Type) :=
| Normal (a : A)
| Return
| Raise (e : exn).
Arguments Normal {A} a.
Arguments Return {A}.
Arguments Raise {A} e.

(** [balance], a bigint or undefined, as the first block of the callback
    leaves it. Destructuring an undefined [data.result] is a TypeError. *)
Definition splitBalance (type : SplitType) (data : MulticallResult)
    : completion (option Z) :=
  match type with
  | splitV1 => Normal (asBigint (result data))
  | splitV2 =>
      match asArray (result data) with
      | None => Raise TypeError
      | Some components =>
          match mjoin (components !! 0%nat), mjoin (components !! 1%nat) with
          | Some splitBalance, Some warehouseBalance =>
              Normal (Some (splitBalance + warehouseBalance))
          | _, _ => Return
          end
      end
  end.

(** [symbol] and [decimals] as the second block leaves them. *)
Definition splitTokenInfo (chainId : Z) (tokenData : TokenData) (token : string)
    : completion (string * Z) :=
  if decide (token = zeroAddress) then
    Normal (nativeCurrencySymbol chainId, 18)
  else
    match tokenData !! token with
    | None => Return (* Unable to fetch token data *)
    | Some data =>
        match tokenSymbol data, tokenDecimals data with
        | Some symbol, Some decimals => Normal (symbol, decimals)
        | _, _ => Return (* ignore non erc20 *)
        end
    end.

(** The callback of [fullTokenList.map] in processSplitBalanceMulticallResponse. *)
Definition splitBalanceCallback (type : SplitType) (chainId : Z)
    (tokenData : TokenData) (multicallResponse : list MulticallResult)
    (token : string) (index : nat) (balances : FormattedTokenBalances)
    : outcome FormattedTokenBalances :=
  data ← element multicallResponse index;
  match splitBalance type data with
  | Raise e => Throw e
  | Return => Ok balances
  | Normal balance =>
      match splitTokenInfo chainId tokenData token with
      | Raise e => Throw e
      | Return => Ok balances
      | Normal (symbol, decimals) =>
          match balance with
          | Some balance =>
              if 2 <? balance then
                (* Splits can leave one in the contract and one in the
                   warehouse for gas efficiency. Filter those out. *)
                let formattedAmount := fromBigIntToTokenValue balance decimals in
                Ok (<[token := {| rawAmount := balance;
                                  formattedAmount := formattedAmount;
                                  symbol := symbol;
                                  decimals := decimals |}]> balances)
              else Ok balances
          | None => Ok balances (* undefined > 2n is false *)
          end
      end
  end.

Definition processSplitBalanceMulticallResponse (type : SplitType) (chainId : Z)
    (fullTokenList : list string) (tokenData : TokenData)
    (multicallResponse : list MulticallResult) (balances : FormattedTokenBalances)
    : outcome FormattedTokenBalances :=
  forEachIndexed (splitBalanceCallback type chainId tokenData multicallResponse)
    fullTokenList 0%nat balances.

(** *** Balance-fetch operations

    [Promise.all] of two pending calls rejects with whichever rejects first;
    the model reports the rejection of the earlier array element. *)

Definition fetchActiveBalances (chainId : Z) (accountAddress : string)
    (publicClient : SplitsPublicClient) (fullTokenList : list string)
    : outcome FormattedTokenBalances :=
  let balances : FormattedTokenBalances := ∅ in
  let erc20Tokens := filter (fun token => token ≠ zeroAddress) fullTokenList in
  let contractCalls := getTokenBalanceCalls accountAddress fullTokenList in
  tokenData ← fetchTokenData erc20Tokens publicClient;
  multicallResponse ← multicall publicClient contractCalls;
  processBalanceMulticallResponse chainId fullTokenList tokenData multicallResponse
    balances.

Definition fetchSplitActiveBalances (type : SplitType) (chainId : Z)
    (splitAddress : string) (publicClient : SplitsPublicClient)
    (fullTokenList : list string) : outcome FormattedTokenBalances :=
  let balances : FormattedTokenBalances := ∅ in
  formattedTokenList ← mapThrowing getAddress fullTokenList;
  let erc20Tokens := filter (fun token => token ≠ zeroAddress) formattedTokenList in
  let contractCalls :=
    getSplitTokenBalanceCalls type chainId splitAddress formattedTokenList in
  tokenData ← fetchTokenData erc20Tokens publicClient;
  multicallResponse ← multicall publicClient contractCalls;
  processSplitBalanceMulticallResponse type chainId formattedTokenList tokenData
    multicallResponse balances.

(** A string is truthy unless empty, undefined is falsy. *)
Definition truthy (pageKey : option string) : bool :=
  match pageKey with
  | Some key => negb (String.eqb key "")
  | None => false
  end.

(** The callback of [erc20Balances.tokenBalances.map]. *)
Definition tokenBalanceCallback (erc20TokenData : TokenData)
    (balanceData : TokenBalance) (index : nat) (balances : FormattedTokenBalances)
    : outcome FormattedTokenBalances :=
  match erc20TokenData !! contractAddress balanceData with
  | None => Ok balances (* Failed to fetch token data, not a valid erc20 *)
  | Some data =>
      formattedAddress ← getAddress (contractAddress balanceData);
      rawAmount ← BigInt (tokenBalance balanceData);
      let symbol := default "UNKNOWN" (tokenSymbol data) in
      let decimals := default 18 (tokenDecimals data) in
      let formattedAmount := fromBigIntToTokenValue rawAmount decimals in
      Ok (<[formattedAddress := {| rawAmount := rawAmount;
                                   formattedAmount := formattedAmount;
                                   symbol := symbol;
                                   decimals := decimals |}]> balances)
  end.

(** The second half of the loop body: resolve the page's tokens and write an
    entry for each token that has metadata. *)
Definition writeTokenBalances (erc20Balances : TokenBalances)
    (rpcPublicClient : SplitsPublicClient) (balances : FormattedTokenBalances)
    : outcome FormattedTokenBalances :=
  let erc20TokensToFetch := map contractAddress (tokenBalances erc20Balances) in
  erc20TokenData ← fetchTokenData erc20TokensToFetch rpcPublicClient;
  forEachIndexed (tokenBalanceCallback erc20TokenData)
    (tokenBalances erc20Balances) 0%nat balances.

(** One pass through the body of the do-while loop, the [served]-th, entered
    with the variable pageKey holding [currentKey]: the requests it creates,
    and the page key and balances it ends with. *)
Definition loopBody (chainId : Z) (address : string)
    (rpcPublicClient : SplitsPublicClient) (served : nat)
    (currentKey : option string) (balances : FormattedTokenBalances)
    : list Request * outcome (option string * FormattedTokenBalances) :=
  let cursor := if truthy currentKey then currentKey else None in
  let promisesArray :=
    TokenBalancesRequest address cursor ::
    (* Only need to fetch native token on the first loop *)
    (if negb (truthy currentKey) then [NativeBalanceRequest address] else []) in
  (promisesArray,
   erc20Balances ← alchemy_getTokenBalances rpcPublicClient served address cursor;
   balances ←
     (if negb (truthy currentKey) then
        ethBalance ← getBalance rpcPublicClient address;
        let symbol := nativeCurrencySymbol chainId in
        let decimals := 18 in
        let formattedAmount := fromBigIntToTokenValue ethBalance decimals in
        Ok (<[zeroAddress := {| rawAmount := ethBalance;
                                formattedAmount := formattedAmount;
                                symbol := symbol;
                                decimals := decimals |}]> balances)
      else Ok balances);
   balances ← writeTokenBalances erc20Balances rpcPublicClient balances;
   Ok (pageKey erc20Balances, balances)).

(** What a run of the fetcher leaves behind: the requests it sent and how it
    ended. *)
Record Run := {
  requests : list Request;
  iterations : nat;
  completed : outcome FormattedTokenBalances
}.

(** [do { body } while (pageKey)]. The loop has no bound of its own; [fuel]
    bounds the passes the model follows, and [None] says that the loop was
    still running when the fuel ran out. *)
Fixpoint doWhile (fuel : nat) (chainId : Z) (address : string)
    (rpcPublicClient : SplitsPublicClient) (served : nat)
    (currentKey : option string) (balances : FormattedTokenBalances)
    (sent : list Request) : option Run :=
  match fuel with
  | O => None
  | S fuel' =>
      let '(promisesArray, after) :=
        loopBody chainId address rpcPublicClient served currentKey balances in
      match after with
      | Throw e =>
          Some {| requests := sent ++ promisesArray; iterations := S served;
                  completed := Throw e |}
      | Ok (nextKey, balances') =>
          if truthy nextKey then
            doWhile fuel' chainId address rpcPublicClient (S served) nextKey
              balances' (sent ++ promisesArray)
          else
            Some {| requests := sent ++ promisesArray; iterations := S served;
                    completed := Ok balances' |}
      end
  end.

Definition fetchContractBalancesWithAlchemy (fuel : nat) (chainId : Z)
    (address : string) (rpcPublicClient : SplitsPublicClient) : option Run :=
  if negb (isAlchemyPublicClient rpcPublicClient) then
    Some {| requests := []; iterations := 0;
            completed := Throw (Error "Cannot call this without an alchemy provider") |}
  else
    doWhile fuel chainId address rpcPublicClient 0 (Some "") ∅ [].

(** *** Balance merge engine *)

Definition mergeBalances (balances : list IBalance) : IBalance :=
  mergeWith ∅ balances
    (fun (o : option Balance) (s : Balance) =>
       {| balanceSymbol := default (balanceSymbol s) (balanceSymbol <$> o);
          balanceDecimals := default (balanceDecimals s) (balanceDecimals <$> o);
          amount := default ZERO (amount <$> o) + amount s |}).

Definition mergeFormattedTokenBalances (balances : list FormattedTokenBalances)
    : FormattedTokenBalances :=
  mergeWith ∅ balances
    (fun (o : option FormattedTokenBalance) (s : FormattedTokenBalance) =>
       let decimals := default (decimals s) (decimals <$> o) in
       let rawAmount := default ZERO (rawAmount <$> o) + rawAmount s in
       let formattedAmount := fromBigIntToTokenValue rawAmount decimals in
       {| symbol := default (symbol s) (symbol <$> o);
          decimals := decimals;
          rawAmount := rawAmount;
          formattedAmount := formattedAmount |}).

(** ** Vocabulary of the properties *)

(** The entries that the inputs hold under [key], in the order of the inputs. *)
Definition entriesAt {V} (key : string) (balances : list (gmap string V)) : list V :=
  omap (fun input => input !! key) balances.

Definition total (amounts : list Z) : Z := foldr Z.add 0 amounts.

(** All inputs give the same symbol and decimals to a key they share. *)
Definition agreeOnMetadata (balances : list FormattedTokenBalances) : Prop :=
  ∀ input1 input2 key entry1 entry2,
    input1 ∈ balances → input2 ∈ balances →
    input1 !! key = Some entry1 → input2 !! key = Some entry2 →
    symbol entry1 = symbol entry2 ∧ decimals entry1 = decimals entry2.

(** What an input contributes to the sum under [key]: an input that lacks
    the key contributes zero. *)
Definition rawAmountIn (key : string) (input : FormattedTokenBalances) : Z :=
  from_option rawAmount 0 (input !! key).

Definition amountIn (key : string) (input : IBalance) : Z :=
  from_option amount 0 (input !! key).

(** The entry with the summed amount [raw] and the symbol and decimals of
    [first], formatted anew. *)
Definition summedEntry (raw : Z) (first : FormattedTokenBalance)
    : FormattedTokenBalance :=
  {| rawAmount := raw;
     formattedAmount := fromBigIntToTokenValue raw (decimals first);
     symbol := symbol first;
     decimals := decimals first |}.

Definition summedBalance (raw : Z) (first : Balance) : Balance :=
  {| amount := raw;
     balanceSymbol := balanceSymbol first;
     balanceDecimals := balanceDecimals first |}.

(** The entry that the customizer of mergeFormattedTokenBalances builds from
    a non-empty run of entries. *)
Definition mergedEntry (first : FormattedTokenBalance)
    (others : list FormattedTokenBalance) : FormattedTokenBalance :=
  let raw := total (rawAmount <$> first :: others) in
  {| rawAmount := raw;
     formattedAmount := fromBigIntToTokenValue raw (decimals first);
     symbol := symbol first;
     decimals := decimals first |}.

Definition mergedBalance (first : Balance) (others : list Balance) : Balance :=
  {| amount := total (amount <$> first :: others);
     balanceSymbol := balanceSymbol first;
     balanceDecimals := balanceDecimals first |}.

(** The entry the reducers write for a balance under a symbol and decimals. *)
Definition balanceEntry (balance : Z) (symbol : string) (decimals : Z)
    : FormattedTokenBalance :=
  {| rawAmount := balance;
     formattedAmount := fromBigIntToTokenValue balance decimals;
     symbol := symbol;
     decimals := decimals |}.

(** The token is the native sentinel, recorded under the chain's symbol with
    18 decimals, or has metadata with both a symbol and decimals. *)
Definition resolved (chainId : Z) (tokenData : TokenData) (token : string)
    (symbol : string) (decimals : Z) : Prop :=
  (token = zeroAddress ∧ symbol = nativeCurrencySymbol chainId ∧ decimals = 18) ∨
  (token ≠ zeroAddress ∧
   ∃ data, tokenData !! token = Some data ∧
           tokenSymbol data = Some symbol ∧ tokenDecimals data = Some decimals).

(** A callback that only ever adds entries to its accumulator: run on any
    accumulator, it lays what it writes over it. *)
Definition additive {A V} (callback : A → nat → gmap string V → outcome (gmap string V))
    : Prop :=
  ∀ x index acc, callback x index acc = (fun written => written ∪ acc) <$> callback x index ∅.

(** A callback that, when it completes, has at most written an entry under
    the token it was called for. *)
Definition writesOwnKey {V}
    (callback : string → nat → gmap string V → outcome (gmap string V)) : Prop :=
  ∀ token index acc acc',
    callback token index acc = Ok acc' → acc' = acc ∨ ∃ entry, acc' = <[token := entry]> acc.

(** The symbol and the decimals that the multicall response holds for the
    token at [index] of the list the calls were built from. *)
Definition symbolResult (multicallResponse : list MulticallResult) (index : nat)
    : option string :=
  data ← multicallResponse !! (index * 2)%nat; asString (result data).

Definition decimalsResult (multicallResponse : list MulticallResult) (index : nat)
    : option Z :=
  data ← multicallResponse !! (index * 2 + 1)%nat; asNumber (result data).

(** The native entry, if there is one, is as the chain's table has it. *)
Definition nativeRecord (chainId : Z) (balances : FormattedTokenBalances) : Prop :=
  ∀ entry, balances !! zeroAddress = Some entry →
    decimals entry = 18 ∧
    symbol entry = match CHAIN_INFO chainId with
                   | Some info => currencySymbol (nativeCurrency info)
                   | None => "ETH"
                   end.

(** Every key is spelled as [getAddress] spells it. *)
Definition checksummedKeys {V} (balances : gmap string V) : Prop :=
  ∀ key, is_Some (balances !! key) → getAddress key = Ok key.

(** Two completions that, if they are mappings, agree on the native entry,
    and otherwise are the same error. *)
Definition sameNativeEntry (left right : outcome FormattedTokenBalances) : Prop :=
  match left, right with
  | Ok balances, Ok balances' => balances !! zeroAddress = balances' !! zeroAddress
  | Throw e, Throw e' => e = e'
  | _, _ => False
  end.

(** The page key sent with the j-th token balance request when the pages
    before it were [pages] and the first request carried [first]. *)
Definition cursorFor (first : option string) (pages : list TokenBalances) (j : nat)
    : option string :=
  match j with
  | O => first
  | S j' => page ← pages !! j'; pageKey page
  end.

Definition succeeds {A} (m : outcome A) : Prop := ∃ a, m = Ok a.

(** The requests of one pass of the loop entered with [currentKey]. *)
Definition requestsOfPass (address : string) (currentKey : option string)
    : list Request :=
  TokenBalancesRequest address (if truthy currentKey then currentKey else None) ::
  (if negb (truthy currentKey) then [NativeBalanceRequest address] else []).

(** ** Properties of viem's [getAddress] *)

Lemma hexDigit_cases (c : ascii) :
  isHexDigit c = true →
  isHexDigit (toLowerCase c) = true ∧
  isHexDigit (toUpperCase (toLowerCase c)) = true ∧
  toLowerCase (toLowerCase c) = toLowerCase c ∧
  toLowerCase (toUpperCase (toLowerCase c)) = toLowerCase c ∧
  (toLowerCase c = "0"%char → c = "0"%char) ∧
  (toUpperCase (toLowerCase c) = "0"%char → c = "0"%char).
Proof.
  destruct c as [[] [] [] [] [] [] [] []]; vm_compute; intros H;
    try discriminate H; repeat split; intros; congruence.
Qed.

Lemma checksumDigits_length digits hash :
  length (checksumDigits digits hash) = length digits.
Proof.
  revert hash. induction digits as [|c digits IH]; intros [|h hash]; simpl; auto.
Qed.

Lemma checksumDigits_nil digits : checksumDigits digits [] = digits.
Proof. by destruct digits. Qed.

Lemma checksumDigits_hex digits hash :
  forallb isHexDigit digits = true →
  forallb isHexDigit (checksumDigits (map toLowerCase digits) hash) = true.
Proof.
  revert hash. induction digits as [|c digits IH]; intros hash Hhex; [by destruct hash|].
  simpl in Hhex. apply andb_true_iff in Hhex as [Hc Hdigits].
  destruct (hexDigit_cases c Hc) as (Hlow & Hup & _).
  destruct hash as [|h hash]; simpl.
  - rewrite Hlow. simpl. rewrite <- (checksumDigits_nil (map toLowerCase digits)).
    apply (IH [] Hdigits).
  - destruct (8 <=? h); rewrite ?Hlow, ?Hup; simpl; apply (IH hash Hdigits).
Qed.

Lemma checksumDigits_lower digits hash :
  forallb isHexDigit digits = true →
  map toLowerCase (checksumDigits (map toLowerCase digits) hash)
  = map toLowerCase digits.
Proof.
  revert hash. induction digits as [|c digits IH]; intros hash Hhex; [by destruct hash|].
  simpl in Hhex. apply andb_true_iff in Hhex as [Hc Hdigits].
  destruct (hexDigit_cases c Hc) as (_ & _ & Hlow & Hup & _).
  destruct hash as [|h hash]; simpl.
  - rewrite Hlow. f_equal. rewrite <- (checksumDigits_nil (map toLowerCase digits)) at 1.
    apply (IH [] Hdigits).
  - destruct (8 <=? h); rewrite ?Hlow, ?Hup; f_equal; apply (IH hash Hdigits).
Qed.

Lemma checksumDigits_zero digits hash :
  forallb isHexDigit digits = true →
  Forall (fun c => c = "0"%char) (checksumDigits (map toLowerCase digits) hash) →
  Forall (fun c => c = "0"%char) digits.
Proof.
  revert hash. induction digits as [|c digits IH]; intros hash Hhex Hzero; [done|].
  simpl in Hhex. apply andb_true_iff in Hhex as [Hc Hdigits].
  destruct (hexDigit_cases c Hc) as (_ & _ & _ & _ & Hlow & Hup).
  destruct hash as [|h hash]; simpl in Hzero;
    apply Forall_cons in Hzero as [Hhead Htail].
  - constructor; [by apply Hlow|].
    apply (IH [] Hdigits). by rewrite checksumDigits_nil.
  - constructor; [|by apply (IH hash)].
    destruct (8 <=? h); [by apply Hup | by apply Hlow].
Qed.

Lemma isAddress_spelled address :
  isAddress address = true →
  ∃ digits, list_ascii_of_string address = "0"%char :: "x"%char :: digits ∧
            length digits = 40%nat ∧ forallb isHexDigit digits = true.
Proof.
  unfold isAddress. destruct (list_ascii_of_string address) as [|c0 [|c1 digits]];
    try done.
  rewrite !andb_true_iff.
  intros [[[->%Ascii.eqb_eq ->%Ascii.eqb_eq] Hlen%Nat.eqb_eq] Hhex]. eauto.
Qed.

Lemma getAddress_spelled address checksummed :
  getAddress address = Ok checksummed →
  ∃ digits hash,
    list_ascii_of_string address = "0"%char :: "x"%char :: digits ∧
    length digits = 40%nat ∧ forallb isHexDigit digits = true ∧
    hash = nibbles (keccak256 (map code (map toLowerCase digits))) ∧
    list_ascii_of_string checksummed
    = "0"%char :: "x"%char :: checksumDigits (map toLowerCase digits) hash.
Proof.
  unfold getAddress. destruct (isAddress address) eqn:Haddress; [|done].
  intros [= <-]. apply isAddress_spelled in Haddress as (digits & Hspell & Hlen & Hhex).
  exists digits, (nibbles (keccak256 (map code (map toLowerCase digits)))).
  repeat split; try done.
  unfold checksumAddress. rewrite Hspell. simpl skipn.
  by rewrite list_ascii_of_string_of_list_ascii.
Qed.

(** The checksummed spelling is a fixed point. *)
Lemma getAddress_idempotent address checksummed :
  getAddress address = Ok checksummed → getAddress checksummed = Ok checksummed.
Proof.
  intros (digits & hash & Hspell & Hlen & Hhex & Hhash & Hsum)%getAddress_spelled.
  unfold getAddress, isAddress. rewrite Hsum.
  rewrite checksumDigits_length, length_map, Hlen, checksumDigits_hex by done.
  simpl. f_equal. unfold checksumAddress. rewrite Hsum. simpl skipn.
  rewrite !drop_0, checksumDigits_lower by done. rewrite <- Hhash, <- Hsum.
  apply string_of_list_ascii_of_string.
Qed.

Lemma getAddress_zeroAddress : getAddress zeroAddress = Ok zeroAddress.
Proof. vm_compute. reflexivity. Qed.

(** Only the zero address is spelled as the zero address. *)
Lemma getAddress_zero_only address :
  getAddress address = Ok zeroAddress → address = zeroAddress.
Proof.
  intros (digits & hash & Hspell & Hlen & Hhex & Hhash & Hsum)%getAddress_spelled.
  assert (Forall (fun c => c = "0"%char) digits) as Hzero.
  { apply (checksumDigits_zero digits hash Hhex).
    injection Hsum as <-. repeat constructor. }
  rewrite <- (string_of_list_ascii_of_string address), Hspell.
  assert (digits = replicate 40 "0"%char) as ->; [|reflexivity].
  symmetry. apply replicate_as_Forall. split; [done|].
  eapply Forall_impl; [exact Hzero|]. by intros c ->.
Qed.

(** ** Properties of the merge engine *)

Lemma total_app (xs ys : list Z) : total (xs ++ ys) = total xs + total ys.
Proof. induction xs as [|x xs IH]; simpl; [done | rewrite IH; lia]. Qed.

Lemma total_Permutation (xs ys : list Z) : xs ≡ₚ ys → total xs = total ys.
Proof. induction 1; simpl; lia. Qed.

Lemma entriesAt_app {V} key (xs ys : list (gmap string V)) :
  entriesAt key (xs ++ ys) = entriesAt key xs ++ entriesAt key ys.
Proof. apply omap_app. Qed.

(** One source: every key of the source is rewritten by the customizer, the
    other keys of the object are left alone. *)
Lemma mergeWith_source_lookup {V} (customizer : option V → V → V)
    (object source : gmap string V) (key : string) :
  map_fold (fun key srcValue object =>
              <[key := customizer (object !! key) srcValue]> object)
           object source !! key
  = match source !! key with
    | Some srcValue => Some (customizer (object !! key) srcValue)
    | None => object !! key
    end.
Proof.
  induction source as [|i x m Hi Hfirst IH] using map_first_key_ind.
  - by rewrite map_fold_empty, lookup_empty.
  - rewrite map_fold_insert_first_key by done.
    destruct (decide (i = key)) as [->|Hne].
    + rewrite !lookup_insert_eq, IH, Hi. done.
    + rewrite !lookup_insert_ne by done. exact IH.
Qed.

(** All sources: the customizer is folded over the entries under the key. *)
Lemma mergeWith_lookup {V} (customizer : option V → V → V)
    (sources : list (gmap string V)) (object : gmap string V) (key : string) :
  mergeWith object sources customizer !! key
  = foldl (fun o s => Some (customizer o s)) (object !! key) (entriesAt key sources).
Proof.
  unfold mergeWith, entriesAt. revert object.
  induction sources as [|source sources IH]; intros object; simpl; [done|].
  rewrite IH, mergeWith_source_lookup.
  destruct (source !! key); done.
Qed.

Lemma mergedEntry_fold (first : FormattedTokenBalance) others more :
  foldl (fun o s =>
           Some (let decimals := default (decimals s) (decimals <$> o) in
                 let rawAmount := default ZERO (rawAmount <$> o) + rawAmount s in
                 let formattedAmount := fromBigIntToTokenValue rawAmount decimals in
                 {| symbol := default (symbol s) (symbol <$> o);
                    decimals := decimals;
                    rawAmount := rawAmount;
                    formattedAmount := formattedAmount |}))
        (Some (mergedEntry first others)) more
  = Some (mergedEntry first (others ++ more)).
Proof.
  revert others. induction more as [|s more IH]; intros others.
  - by rewrite app_nil_r.
  - simpl foldl. replace (others ++ s :: more) with ((others ++ [s]) ++ more)
      by (by rewrite <- app_assoc).
    rewrite <- IH. do 2 f_equal.
    assert (total (rawAmount <$> first :: others ++ [s])
            = total (rawAmount <$> first :: others) + rawAmount s) as Hraw.
    { rewrite !fmap_cons, fmap_app. simpl. rewrite total_app. simpl. lia. }
    unfold mergedEntry. cbv zeta. rewrite Hraw. reflexivity.
Qed.

Lemma mergedBalance_fold (first : Balance) others more :
  foldl (fun o s =>
           Some {| balanceSymbol := default (balanceSymbol s) (balanceSymbol <$> o);
                   balanceDecimals := default (balanceDecimals s) (balanceDecimals <$> o);
                   amount := default ZERO (amount <$> o) + amount s |})
        (Some (mergedBalance first others)) more
  = Some (mergedBalance first (others ++ more)).
Proof.
  revert others. induction more as [|s more IH]; intros others.
  - by rewrite app_nil_r.
  - simpl foldl. replace (others ++ s :: more) with ((others ++ [s]) ++ more)
      by (by rewrite <- app_assoc).
    rewrite <- IH. do 2 f_equal.
    assert (total (amount <$> first :: others ++ [s])
            = total (amount <$> first :: others) + amount s) as Hraw.
    { rewrite !fmap_cons, fmap_app. simpl. rewrite total_app. simpl. lia. }
    unfold mergedBalance. rewrite Hraw. reflexivity.
Qed.

Lemma mergeFormattedTokenBalances_lookup (balances : list FormattedTokenBalances) key :
  mergeFormattedTokenBalances balances !! key
  = match entriesAt key balances with
    | [] => None
    | first :: others => Some (mergedEntry first others)
    end.
Proof.
  unfold mergeFormattedTokenBalances. rewrite mergeWith_lookup, lookup_empty.
  destruct (entriesAt key balances) as [|first others]; [done|].
  change others with ([] ++ others) at 2.
  rewrite <- (mergedEntry_fold first [] others). simpl foldl. do 2 f_equal.
  unfold mergedEntry, ZERO. simpl. by rewrite Z.add_0_r.
Qed.

Lemma mergeBalances_lookup (balances : list IBalance) key :
  mergeBalances balances !! key
  = match entriesAt key balances with
    | [] => None
    | first :: others => Some (mergedBalance first others)
    end.
Proof.
  unfold mergeBalances. rewrite mergeWith_lookup, lookup_empty.
  destruct (entriesAt key balances) as [|first others]; [done|].
  change others with ([] ++ others) at 2.
  rewrite <- (mergedBalance_fold first [] others). simpl foldl. do 2 f_equal.
  unfold mergedBalance, ZERO. simpl. by rewrite Z.add_0_r.
Qed.

Lemma entriesAt_nil_iff {V} key (balances : list (gmap string V)) :
  entriesAt key balances = [] ↔ ∀ input, input ∈ balances → input !! key = None.
Proof.
  unfold entriesAt. induction balances as [|b bs IH]; simpl.
  - split; [intros _ ? []%elem_of_nil | done].
  - destruct (b !! key) as [e|] eqn:Hb.
    + split; [done|]. intros H. specialize (H b (list_elem_of_here _ _)). congruence.
    + rewrite IH. split.
      * intros H input [->|Hin]%elem_of_cons; auto.
      * intros H input Hin. apply H. by right.
Qed.

Lemma merged_dom {V} (merged : gmap string V) (balances : list (gmap string V)) :
  (∀ key, is_Some (merged !! key) ↔ entriesAt key balances ≠ []) →
  dom merged = ⋃ (dom <$> balances).
Proof.
  intros H. apply set_eq. intros key.
  rewrite elem_of_dom, H, elem_of_union_list. split.
  - intros Hne. destruct (entriesAt key balances) as [|e es] eqn:He; [done|].
    assert (e ∈ entriesAt key balances) as Hin by (rewrite He; left).
    apply list_elem_of_omap in Hin as (input & Hinput & Hlookup).
    exists (dom input). split; [by apply list_elem_of_fmap_2|].
    apply elem_of_dom. eauto.
  - intros (X & HX & Hkey). apply list_elem_of_fmap in HX as (input & -> & Hinput).
    apply elem_of_dom in Hkey as [e He].
    rewrite entriesAt_nil_iff. intros Hnone. specialize (Hnone _ Hinput). congruence.
Qed.

Lemma total_rawAmountIn key (balances : list FormattedTokenBalances) :
  total (rawAmountIn key <$> balances) = total (rawAmount <$> entriesAt key balances).
Proof.
  induction balances as [|b bs IH]; [done|].
  change (entriesAt key (b :: bs))
    with (match b !! key with
          | Some entry => entry :: entriesAt key bs
          | None => entriesAt key bs
          end).
  rewrite fmap_cons. change (total (?x :: ?xs)) with (x + total xs).
  rewrite IH. unfold rawAmountIn. destruct (b !! key); simpl; [done | lia].
Qed.

Lemma total_amountIn key (balances : list IBalance) :
  total (amountIn key <$> balances) = total (amount <$> entriesAt key balances).
Proof.
  induction balances as [|b bs IH]; [done|].
  change (entriesAt key (b :: bs))
    with (match b !! key with
          | Some entry => entry :: entriesAt key bs
          | None => entriesAt key bs
          end).
  rewrite fmap_cons. change (total (?x :: ?xs)) with (x + total xs).
  rewrite IH. unfold amountIn. destruct (b !! key); simpl; [done | lia].
Qed.

(** The merged mapping, key by key. *)
Lemma mergeFormattedTokenBalances_at (balances : list FormattedTokenBalances) key :
  mergeFormattedTokenBalances balances !! key
  = summedEntry (total (rawAmountIn key <$> balances)) <$> head (entriesAt key balances).
Proof.
  rewrite mergeFormattedTokenBalances_lookup, total_rawAmountIn.
  by destruct (entriesAt key balances).
Qed.

Lemma mergeBalances_at (balances : list IBalance) key :
  mergeBalances balances !! key
  = summedBalance (total (amountIn key <$> balances)) <$> head (entriesAt key balances).
Proof.
  rewrite mergeBalances_lookup, total_amountIn.
  by destruct (entriesAt key balances).
Qed.

(** C1. The merged mapping has the union of the inputs' keys; under each key
    the raw amount is the sum over all inputs, an input without the key
    counting for zero; symbol and decimals are those of the first input that
    has the key; the formatted amount is computed from the sum. The same
    holds of mergeBalances, which has no formatted amount. *)
Theorem merge_sums_per_key :
  (∀ balances : list FormattedTokenBalances,
     dom (mergeFormattedTokenBalances balances) = ⋃ (dom <$> balances) ∧
     ∀ key,
       mergeFormattedTokenBalances balances !! key
       = (fun first =>
            let raw := total (rawAmountIn key <$> balances) in
            {| rawAmount := raw;
               formattedAmount := fromBigIntToTokenValue raw (decimals first);
               symbol := symbol first;
               decimals := decimals first |})
         <$> head (entriesAt key balances)) ∧
  (∀ balances : list IBalance,
     dom (mergeBalances balances) = ⋃ (dom <$> balances) ∧
     ∀ key,
       mergeBalances balances !! key
       = (fun first =>
            {| amount := total (amountIn key <$> balances);
               balanceSymbol := balanceSymbol first;
               balanceDecimals := balanceDecimals first |})
         <$> head (entriesAt key balances)).
Proof.
  split; intros balances; split.
  - apply merged_dom. intros key. rewrite mergeFormattedTokenBalances_at.
    destruct (entriesAt key balances); simpl; [|by eauto].
    split; [by intros [? ?] | done].
  - intros key. apply mergeFormattedTokenBalances_at.
  - apply merged_dom. intros key. rewrite mergeBalances_at.
    destruct (entriesAt key balances); simpl; [|by eauto].
    split; [by intros [? ?] | done].
  - intros key. apply mergeBalances_at.
Qed.

(** What regrouping and reordering do to the entries of a key. *)
Lemma entriesAt_elem {V} key (balances : list (gmap string V)) entry :
  entry ∈ entriesAt key balances ↔ ∃ input, input ∈ balances ∧ input !! key = Some entry.
Proof. apply list_elem_of_omap. Qed.

Lemma entriesAt_concat {V} key (groups : list (list (gmap string V))) :
  entriesAt key (concat groups) = concat (entriesAt key <$> groups).
Proof.
  induction groups as [|g gs IH]; simpl; [done|].
  by rewrite entriesAt_app, IH.
Qed.

Lemma regrouped_total key (groups : list (list FormattedTokenBalances)) :
  total (rawAmountIn key <$> (mergeFormattedTokenBalances <$> groups))
  = total (rawAmountIn key <$> concat groups).
Proof.
  induction groups as [|g gs IH]; [done|].
  rewrite !fmap_cons. change (concat (g :: gs)) with (g ++ concat gs).
  rewrite fmap_app, total_app. change (total (?x :: ?xs)) with (x + total xs).
  rewrite IH. f_equal.
  unfold rawAmountIn at 1. rewrite mergeFormattedTokenBalances_at.
  rewrite (total_rawAmountIn key g). by destruct (entriesAt key g).
Qed.

Lemma regrouped_head key (groups : list (list FormattedTokenBalances)) :
  (fun entry => (symbol entry, decimals entry))
    <$> head (entriesAt key (mergeFormattedTokenBalances <$> groups))
  = (fun entry => (symbol entry, decimals entry))
    <$> head (entriesAt key (concat groups)).
Proof.
  induction groups as [|g gs IH]; [done|].
  rewrite fmap_cons. change (concat (g :: gs)) with (g ++ concat gs).
  rewrite entriesAt_app.
  change (entriesAt key (mergeFormattedTokenBalances g :: ?rest))
    with (match mergeFormattedTokenBalances g !! key with
          | Some entry => entry :: entriesAt key rest
          | None => entriesAt key rest
          end).
  rewrite mergeFormattedTokenBalances_at.
  destruct (entriesAt key g) as [|first others]; simpl; [exact IH | done].
Qed.

Lemma summedEntry_eq raw raw' first first' :
  raw = raw' →
  (symbol first, decimals first) = (symbol first', decimals first') →
  summedEntry raw first = summedEntry raw' first'.
Proof. intros -> [= Hs Hd]. unfold summedEntry. by rewrite Hs, Hd. Qed.

(** C2. When the inputs agree on symbol and decimals for every key, the
    merged mapping depends neither on the order of the inputs nor on how
    they are grouped into intermediate merges. *)
Theorem merge_commutative_associative
    (groups : list (list FormattedTokenBalances))
    (permuted : list FormattedTokenBalances) :
  agreeOnMetadata (concat groups) →
  permuted ≡ₚ concat groups →
  mergeFormattedTokenBalances permuted = mergeFormattedTokenBalances (concat groups) ∧
  mergeFormattedTokenBalances (mergeFormattedTokenBalances <$> groups)
  = mergeFormattedTokenBalances (concat groups).
Proof.
  intros Hagree Hperm. split; apply map_eq; intros key;
    rewrite !mergeFormattedTokenBalances_at.
  - assert (entriesAt key permuted ≡ₚ entriesAt key (concat groups)) as Hentries
      by (unfold entriesAt; by rewrite Hperm).
    rewrite (total_Permutation _ _ (fmap_Permutation (rawAmountIn key) _ _ Hperm)).
    destruct (entriesAt key permuted) as [|first others] eqn:Hp;
      destruct (entriesAt key (concat groups)) as [|first' others'] eqn:Hc; simpl.
    + done.
    + by apply Permutation_nil_l in Hentries.
    + by apply Permutation_nil_r in Hentries.
    + f_equal. apply summedEntry_eq; [done|].
      assert (first ∈ entriesAt key (concat groups)) as Hin.
      { rewrite Hc, <- Hentries. left. }
      assert (first' ∈ entriesAt key (concat groups)) as Hin'.
      { rewrite Hc. left. }
      apply entriesAt_elem in Hin as (input & Hinput & Hlookup).
      apply entriesAt_elem in Hin' as (input' & Hinput' & Hlookup').
      destruct (Hagree input input' key first first') as [-> ->]; done.
  - rewrite regrouped_total.
    pose proof (regrouped_head key groups) as Hhead.
    destruct (head (entriesAt key (mergeFormattedTokenBalances <$> groups)));
      destruct (head (entriesAt key (concat groups))); simpl in *; try done.
    f_equal. apply summedEntry_eq; [done|]. congruence.
Qed.

(** ** Properties of the traversal *)

Lemma bind_Ok_l {A B} (a : A) (f : A → outcome B) : (Ok a ≫= f) = f a.
Proof. done. Qed.

Lemma bind_Ok_r {A} (m : outcome A) : (a ← m; Ok a) = m.
Proof. by destruct m. Qed.

Lemma forEachIndexed_app {A St} (callback : A → nat → St → outcome St) l1 l2 index acc :
  forEachIndexed callback (l1 ++ l2) index acc
  = acc' ← forEachIndexed callback l1 index acc;
    forEachIndexed callback l2 (index + length l1)%nat acc'.
Proof.
  revert index acc. induction l1 as [|x l1 IH]; intros index acc; simpl.
  - by rewrite Nat.add_0_r.
  - destruct (callback x index acc) as [acc'|e]; simpl; [|done].
    rewrite IH. by replace (S index + length l1)%nat with (index + S (length l1))%nat by lia.
Qed.

(** Visiting one more element. *)
Lemma forEachIndexed_take_S {A St} (callback : A → nat → St → outcome St) l i x acc :
  l !! i = Some x →
  forEachIndexed callback (take (S i) l) 0 acc
  = acc' ← forEachIndexed callback (take i l) 0 acc; callback x i acc'.
Proof.
  intros Hx. rewrite (take_S_r _ _ _ Hx), forEachIndexed_app.
  assert (length (take i l) = i) as ->.
  { rewrite length_take. apply lookup_lt_Some in Hx. lia. }
  destruct (forEachIndexed callback (take i l) 0 acc); simpl; [|done].
  apply bind_Ok_r.
Qed.

(** An invariant of the accumulator that every call of the callback keeps. *)
Lemma forEachIndexed_invariant {A St} (Inv : St → Prop)
    (callback : A → nat → St → outcome St) l :
  (∀ x index acc acc', x ∈ l → Inv acc → callback x index acc = Ok acc' → Inv acc') →
  ∀ index acc acc',
    Inv acc → forEachIndexed callback l index acc = Ok acc' → Inv acc'.
Proof.
  induction l as [|x l IH]; intros Hstep index acc acc' Hacc Hrun; simpl in Hrun.
  - by injection Hrun as <-.
  - destruct (callback x index acc) as [acc1|e] eqn:Hx; simpl in Hrun; [|done].
    eapply IH; [|by eapply (Hstep x index acc acc1); [left| |]|exact Hrun].
    intros y j b b' Hy. apply Hstep. by right.
Qed.

(** ** Properties of the reducers *)

Lemma element_lookup {A} (array : list A) index x :
  array !! index = Some x → element array index = Ok x.
Proof. unfold element. by intros ->. Qed.

Lemma element_singleton {A} (x : A) : element [x] 0 = Ok x.
Proof. done. Qed.

Lemma balanceCallback_additive chainId tokenData multicallResponse :
  additive (balanceCallback chainId tokenData multicallResponse).
Proof.
  intros token index acc. unfold balanceCallback.
  destruct (element multicallResponse index) as [data|e]; simpl; [|done].
  destruct (asBigint (result data)) as [balance|]; simpl;
    [|by rewrite (left_id_L ∅ (∪))].
  destruct (decide (token = zeroAddress)); simpl.
  { by rewrite insert_empty, <- insert_union_singleton_l. }
  destruct (tokenData !! token) as [data'|]; simpl; [|by rewrite (left_id_L ∅ (∪))].
  destruct (tokenSymbol data'), (tokenDecimals data'); simpl;
    rewrite ?(left_id_L ∅ (∪)); try done.
  by rewrite insert_empty, <- insert_union_singleton_l.
Qed.

Lemma splitBalanceCallback_additive type chainId tokenData multicallResponse :
  additive (splitBalanceCallback type chainId tokenData multicallResponse).
Proof.
  intros token index acc. unfold splitBalanceCallback.
  destruct (element multicallResponse index) as [data|e]; simpl; [|done].
  destruct (splitBalance type data) as [balance| |e]; simpl;
    rewrite ?(left_id_L ∅ (∪)); try done.
  destruct (splitTokenInfo chainId tokenData token) as [[symbol decimals]| |e]; simpl;
    rewrite ?(left_id_L ∅ (∪)); try done.
  destruct balance as [balance|]; simpl; rewrite ?(left_id_L ∅ (∪)); try done.
  destruct (2 <? balance); simpl; rewrite ?(left_id_L ∅ (∪)); try done.
  by rewrite insert_empty, <- insert_union_singleton_l.
Qed.

(** The callbacks read the response only at their own index. *)
Lemma balanceCallback_single chainId tokenData multicallResponse token index data acc :
  multicallResponse !! index = Some data →
  balanceCallback chainId tokenData multicallResponse token index acc
  = processBalanceMulticallResponse chainId [token] tokenData [data] acc.
Proof.
  intros Hdata. unfold processBalanceMulticallResponse. simpl.
  rewrite bind_Ok_r. unfold balanceCallback.
  by rewrite (element_lookup _ _ _ Hdata), element_singleton.
Qed.

Lemma splitBalanceCallback_single type chainId tokenData multicallResponse token index
    data acc :
  multicallResponse !! index = Some data →
  splitBalanceCallback type chainId tokenData multicallResponse token index acc
  = processSplitBalanceMulticallResponse type chainId [token] tokenData [data] acc.
Proof.
  intros Hdata. unfold processSplitBalanceMulticallResponse. simpl.
  rewrite bind_Ok_r. unfold splitBalanceCallback.
  by rewrite (element_lookup _ _ _ Hdata), element_singleton.
Qed.

(** Visiting index i lays over the mapping reached so far what the reducer
    writes for that token and that result alone. *)
Lemma processBalanceMulticallResponse_step chainId fullTokenList tokenData
    multicallResponse balances i token data :
  fullTokenList !! i = Some token →
  multicallResponse !! i = Some data →
  processBalanceMulticallResponse chainId (take (S i) fullTokenList) tokenData
    multicallResponse balances
  = before ← processBalanceMulticallResponse chainId (take i fullTokenList) tokenData
               multicallResponse balances;
    written ← processBalanceMulticallResponse chainId [token] tokenData [data] ∅;
    Ok (written ∪ before).
Proof.
  intros Htoken Hdata.
  rewrite <- (balanceCallback_single _ _ _ _ _ _ _ Hdata).
  unfold processBalanceMulticallResponse.
  rewrite (forEachIndexed_take_S _ _ _ _ _ Htoken).
  destruct (forEachIndexed _ (take i fullTokenList) 0 balances) as [before|e];
    simpl; [|done].
  by rewrite balanceCallback_additive.
Qed.

Lemma processSplitBalanceMulticallResponse_step type chainId fullTokenList tokenData
    multicallResponse balances i token data :
  fullTokenList !! i = Some token →
  multicallResponse !! i = Some data →
  processSplitBalanceMulticallResponse type chainId (take (S i) fullTokenList)
    tokenData multicallResponse balances
  = before ← processSplitBalanceMulticallResponse type chainId (take i fullTokenList)
               tokenData multicallResponse balances;
    written ← processSplitBalanceMulticallResponse type chainId [token] tokenData
                [data] ∅;
    Ok (written ∪ before).
Proof.
  intros Htoken Hdata.
  rewrite <- (splitBalanceCallback_single _ _ _ _ _ _ _ _ Hdata).
  unfold processSplitBalanceMulticallResponse.
  rewrite (forEachIndexed_take_S _ _ _ _ _ Htoken).
  destruct (forEachIndexed _ (take i fullTokenList) 0 balances) as [before|e];
    simpl; [|done].
  by rewrite splitBalanceCallback_additive.
Qed.

(** What the reducers write for one token and one result. *)
Lemma splitTokenInfo_resolved chainId tokenData token symbol decimals :
  resolved chainId tokenData token symbol decimals ↔
  splitTokenInfo chainId tokenData token = Normal (symbol, decimals).
Proof.
  unfold resolved, splitTokenInfo. destruct (decide (token = zeroAddress)) as [->|Hne].
  - split.
    + intros [(_ & -> & ->)|[? _]]; done.
    + intros [= <- <-]. by left.
  - split.
    + intros [[? _]|(_ & data & -> & -> & ->)]; done.
    + destruct (tokenData !! token) as [data|] eqn:Hdata; [|done].
      destruct (tokenSymbol data) eqn:Hs, (tokenDecimals data) eqn:Hd; try done.
      intros [= <- <-]. right. eauto.
Qed.

Lemma split_single_amount type chainId tokenData token data amount symbol decimals :
  splitBalance type data = Normal (Some amount) →
  resolved chainId tokenData token symbol decimals →
  processSplitBalanceMulticallResponse type chainId [token] tokenData [data] ∅
  = Ok (if bool_decide (2 < amount)
        then {[token := balanceEntry amount symbol decimals]} else ∅).
Proof.
  intros Hbalance Hresolved%splitTokenInfo_resolved.
  unfold processSplitBalanceMulticallResponse. simpl. unfold splitBalanceCallback.
  rewrite element_singleton. simpl. rewrite Hbalance, Hresolved.
  case_bool_decide as Hlt.
  - apply Z.ltb_lt in Hlt. rewrite Hlt. simpl. by rewrite insert_empty.
  - apply Z.ltb_nlt in Hlt. by rewrite Hlt.
Qed.

Lemma account_single_amount chainId tokenData token data amount symbol decimals :
  asBigint (result data) = Some amount →
  resolved chainId tokenData token symbol decimals →
  processBalanceMulticallResponse chainId [token] tokenData [data] ∅
  = Ok {[token := balanceEntry amount symbol decimals]}.
Proof.
  intros Hbalance Hresolved.
  unfold processBalanceMulticallResponse. simpl. unfold balanceCallback.
  rewrite element_singleton. simpl. rewrite Hbalance.
  destruct Hresolved as [(-> & -> & ->)|(Hne & data' & Hdata & Hs & Hd)].
  - rewrite decide_True by done. simpl. by rewrite insert_empty.
  - rewrite decide_False by done. rewrite Hdata, Hs, Hd. simpl. by rewrite insert_empty.
Qed.

(** A token that is not native and has no metadata gets no entry, whatever
    its result. *)
Lemma unresolved_token_is_passed_over type chainId tokenData token data :
  token ≠ zeroAddress →
  tokenData !! token = None →
  processBalanceMulticallResponse chainId [token] tokenData [data] ∅ = Ok ∅ ∧
  (∀ balance, splitBalance type data = Normal balance →
     processSplitBalanceMulticallResponse type chainId [token] tokenData [data] ∅
     = Ok ∅).
Proof.
  intros Hne Hnone. split.
  - unfold processBalanceMulticallResponse. simpl. unfold balanceCallback.
    rewrite element_singleton, bind_Ok_l.
    destruct (asBigint (result data)); [|done].
    by rewrite decide_False, Hnone by done.
  - intros balance Hbalance.
    unfold processSplitBalanceMulticallResponse. simpl. unfold splitBalanceCallback.
    rewrite element_singleton, bind_Ok_l, Hbalance. unfold splitTokenInfo.
    by rewrite decide_False, Hnone by done.
Qed.

(** C3, amended. For a token that is native or has resolved metadata, visiting
    its index makes the split reducer (either version) add an entry exactly
    when the raw amount, summed for version 2, exceeds 2; the account reducer
    adds the entry whatever the amount. *)
Theorem dust_filter_on_split_balances_only
    (type : SplitType) (chainId : Z) (fullTokenList : list string)
    (tokenData : TokenData) (multicallResponse : list MulticallResult)
    (balances before : FormattedTokenBalances) (i : nat) (token : string)
    (data : MulticallResult) (amount : Z) (symbol : string) (decimals : Z) :
  fullTokenList !! i = Some token →
  multicallResponse !! i = Some data →
  resolved chainId tokenData token symbol decimals →
  (splitBalance type data = Normal (Some amount) →
   processSplitBalanceMulticallResponse type chainId (take i fullTokenList) tokenData
     multicallResponse balances = Ok before →
   processSplitBalanceMulticallResponse type chainId (take (S i) fullTokenList)
     tokenData multicallResponse balances
   = Ok (if bool_decide (2 < amount)
         then <[token := balanceEntry amount symbol decimals]> before
         else before)) ∧
  (asBigint (result data) = Some amount →
   processBalanceMulticallResponse chainId (take i fullTokenList) tokenData
     multicallResponse balances = Ok before →
   processBalanceMulticallResponse chainId (take (S i) fullTokenList) tokenData
     multicallResponse balances
   = Ok (<[token := balanceEntry amount symbol decimals]> before)).
Proof.
  intros Htoken Hdata Hresolved. split; intros Hamount Hbefore.
  - rewrite (processSplitBalanceMulticallResponse_step _ _ _ _ _ _ _ _ _ Htoken Hdata).
    rewrite Hbefore. simpl.
    rewrite (split_single_amount _ _ _ _ _ _ _ _ Hamount Hresolved). simpl.
    case_bool_decide; [by rewrite <- insert_union_singleton_l|].
    by rewrite (left_id_L ∅ (∪)).
  - rewrite (processBalanceMulticallResponse_step _ _ _ _ _ _ _ _ Htoken Hdata).
    rewrite Hbefore. simpl.
    rewrite (account_single_amount _ _ _ _ _ _ _ Hamount Hresolved). simpl.
    by rewrite <- insert_union_singleton_l.
Qed.

(** ** Repeated tokens and skipped indices *)

Lemma forEachIndexed_invariant_at {A St} (Inv : St → Prop)
    (callback : A → nat → St → outcome St) l :
  ∀ start acc acc',
    (∀ i x acc acc', l !! i = Some x → Inv acc →
                     callback x (start + i)%nat acc = Ok acc' → Inv acc') →
    Inv acc → forEachIndexed callback l start acc = Ok acc' → Inv acc'.
Proof.
  induction l as [|x l IH]; intros start acc acc' Hstep Hacc Hrun; simpl in Hrun.
  - by injection Hrun as <-.
  - destruct (callback x start acc) as [acc1|e] eqn:Hx; simpl in Hrun; [|done].
    eapply (IH (S start) acc1); [| |exact Hrun].
    + intros i y b b' Hy Hb Hcall. apply (Hstep (S i) y b b'); [done..|].
      by replace (start + S i)%nat with (S start + i)%nat by lia.
    + apply (Hstep 0%nat x acc acc1); [done..|]. by rewrite Nat.add_0_r.
Qed.

Lemma forEachIndexed_total {A St} (callback : A → nat → St → outcome St) l :
  ∀ start acc,
    (∀ i x acc, l !! i = Some x → ∃ acc', callback x (start + i)%nat acc = Ok acc') →
    ∃ acc', forEachIndexed callback l start acc = Ok acc'.
Proof.
  induction l as [|x l IH]; intros start acc Hstep; simpl; [by eauto|].
  destruct (Hstep 0%nat x acc) as [acc1 Hx]; [done|].
  rewrite Nat.add_0_r in Hx. rewrite Hx. simpl.
  apply IH. intros i y b Hy.
  replace (S start + i)%nat with (start + S i)%nat by lia. by apply (Hstep (S i)).
Qed.

(** The slot of a token is left as it was when every visit of that token is
    without effect. *)
Lemma forEachIndexed_slot_untouched {V}
    (callback : string → nat → gmap string V → outcome (gmap string V))
    (tokens : list string) (token : string) start acc acc' :
  writesOwnKey callback →
  (∀ i b b', tokens !! i = Some token →
             callback token (start + i)%nat b = Ok b' → b' = b) →
  forEachIndexed callback tokens start acc = Ok acc' →
  acc' !! token = acc !! token.
Proof.
  intros Hown Hnoop Hrun.
  apply (forEachIndexed_invariant_at (fun b => b !! token = acc !! token)
           callback tokens start acc acc'); [|done|done].
  intros i x b b' Hx Hb Hcall.
  destruct (decide (x = token)) as [->|Hne].
  - by rewrite (Hnoop i b b' Hx Hcall).
  - destruct (Hown x _ b b' Hcall) as [->|[entry ->]]; [done|].
    by rewrite lookup_insert_ne.
Qed.

(** The entry of a token is the one written by the last visit that writes. *)
Lemma forEachIndexed_last_writer {V}
    (callback : string → nat → gmap string V → outcome (gmap string V))
    (tokens : list string) (token : string) (entry : V) i acc acc' :
  writesOwnKey callback →
  tokens !! i = Some token →
  (∀ b, callback token i b = Ok (<[token := entry]> b)) →
  (∀ j b b', (i < j)%nat → tokens !! j = Some token →
             callback token j b = Ok b' → b' = b) →
  forEachIndexed callback tokens 0 acc = Ok acc' →
  acc' !! token = Some entry.
Proof.
  intros Hown Htoken Hwrite Hlater Hrun.
  rewrite <- (take_drop_middle tokens i token Htoken) in Hrun.
  rewrite forEachIndexed_app in Hrun.
  destruct (forEachIndexed callback (take i tokens) 0 acc) as [b1|e]; [|done].
  simpl in Hrun. rewrite length_take in Hrun.
  apply lookup_lt_Some in Htoken as Hlt.
  replace (i `min` length tokens)%nat with i in Hrun by lia.
  rewrite Hwrite in Hrun. simpl in Hrun.
  rewrite (forEachIndexed_slot_untouched callback (drop (S i) tokens) token (S i)
             (<[token := entry]> b1) acc' Hown); [by rewrite lookup_insert_eq| |done].
  intros j b b' Hj Hcall. rewrite lookup_drop in Hj.
  apply (Hlater (S i + j)%nat b b'); [lia|done|done].
Qed.

Lemma balanceCallback_writesOwnKey chainId tokenData multicallResponse :
  writesOwnKey (balanceCallback chainId tokenData multicallResponse).
Proof.
  intros token index acc acc'. unfold balanceCallback.
  destruct (element multicallResponse index) as [data|e]; simpl; [|done].
  destruct (asBigint (result data)) as [balance|]; simpl; [|intros [= <-]; by left].
  destruct (decide (token = zeroAddress)) as [->|Hne]; simpl.
  { intros [= <-]. right. eauto. }
  destruct (tokenData !! token) as [data'|]; simpl; [|intros [= <-]; by left].
  destruct (tokenSymbol data'), (tokenDecimals data'); simpl; intros [= <-];
    (by left) || (right; eauto).
Qed.

Lemma splitBalanceCallback_writesOwnKey type chainId tokenData multicallResponse :
  writesOwnKey (splitBalanceCallback type chainId tokenData multicallResponse).
Proof.
  intros token index acc acc'. unfold splitBalanceCallback.
  destruct (element multicallResponse index) as [data|e]; simpl; [|done].
  destruct (splitBalance type data) as [balance| |e]; simpl;
    [|intros [= <-]; by left|done].
  destruct (splitTokenInfo chainId tokenData token) as [[symbol decimals]| |e]; simpl;
    [|intros [= <-]; by left|done].
  destruct balance as [balance|]; simpl; [|intros [= <-]; by left].
  destruct (2 <? balance); simpl; intros [= <-]; (by left) || (right; eauto).
Qed.

(** An undefined result: the account reducer and version 1 of the split
    reducer pass over it; version 2 destructures it. *)
Lemma balanceCallback_undefined chainId tokenData multicallResponse token index data acc :
  multicallResponse !! index = Some data →
  result data = None →
  balanceCallback chainId tokenData multicallResponse token index acc = Ok acc.
Proof.
  intros Hdata Hresult. unfold balanceCallback.
  by rewrite (element_lookup _ _ _ Hdata), bind_Ok_l, Hresult.
Qed.

Lemma splitV1Callback_undefined chainId tokenData multicallResponse token index data acc :
  multicallResponse !! index = Some data →
  result data = None →
  splitBalanceCallback splitV1 chainId tokenData multicallResponse token index acc
  = Ok acc.
Proof.
  intros Hdata Hresult. unfold splitBalanceCallback, splitBalance.
  rewrite (element_lookup _ _ _ Hdata), bind_Ok_l, Hresult. simpl.
  unfold splitTokenInfo. by repeat case_match.
Qed.

Lemma splitV2Callback_undefined chainId tokenData multicallResponse token index data acc :
  multicallResponse !! index = Some data →
  result data = None →
  splitBalanceCallback splitV2 chainId tokenData multicallResponse token index acc
  = Throw TypeError.
Proof.
  intros Hdata Hresult. unfold splitBalanceCallback, splitBalance.
  by rewrite (element_lookup _ _ _ Hdata), bind_Ok_l, Hresult.
Qed.

Lemma balanceCallback_total chainId tokenData multicallResponse token index acc :
  (index < length multicallResponse)%nat →
  ∃ acc', balanceCallback chainId tokenData multicallResponse token index acc = Ok acc'.
Proof.
  intros [data Hdata]%lookup_lt_is_Some. unfold balanceCallback.
  rewrite (element_lookup _ _ _ Hdata). simpl.
  destruct (asBigint (result data)); [|by eauto].
  destruct (decide (token = zeroAddress)); [by eauto|].
  destruct (tokenData !! token) as [data'|]; [|by eauto].
  destruct (tokenSymbol data'), (tokenDecimals data'); by eauto.
Qed.

Lemma splitV1Callback_total chainId tokenData multicallResponse token index acc :
  (index < length multicallResponse)%nat →
  ∃ acc', splitBalanceCallback splitV1 chainId tokenData multicallResponse token index
            acc = Ok acc'.
Proof.
  intros [data Hdata]%lookup_lt_is_Some. unfold splitBalanceCallback.
  rewrite (element_lookup _ _ _ Hdata). simpl.
  unfold splitTokenInfo.
  destruct (decide (token = zeroAddress)).
  { destruct (asBigint (result data)) as [b|]; [destruct (2 <? b)|]; by eauto. }
  destruct (tokenData !! token) as [data'|]; [|by eauto].
  destruct (tokenSymbol data'), (tokenDecimals data'); try by eauto.
  destruct (asBigint (result data)) as [b|]; [destruct (2 <? b)|]; by eauto.
Qed.

(** Version 2 adds the two components, and passes over a result one of whose
    components is undefined. *)
Lemma splitV2_sums_components data onContract inWarehouse rest :
  result data = Some (VArray (Some onContract :: Some inWarehouse :: rest)) →
  splitBalance splitV2 data = Normal (Some (onContract + inWarehouse)).
Proof. unfold splitBalance. by intros ->. Qed.

Lemma splitV2_passes_over_missing_component chainId tokenData multicallResponse token
    index data components acc :
  multicallResponse !! index = Some data →
  result data = Some (VArray components) →
  mjoin (components !! 0%nat) = None ∨ mjoin (components !! 1%nat) = None →
  splitBalanceCallback splitV2 chainId tokenData multicallResponse token index acc
  = Ok acc.
Proof.
  intros Hdata Hresult Hmissing. unfold splitBalanceCallback, splitBalance.
  rewrite (element_lookup _ _ _ Hdata), bind_Ok_l, Hresult. simpl.
  destruct Hmissing as [-> | ->]; [done|].
  by destruct (mjoin (components !! 0%nat)).
Qed.

(** C4, where the code departs from it: when the whole result of an index is
    undefined, version 2 of the split reducer does not pass over the index.
    Destructuring the undefined result raises a TypeError, which ends the
    traversal and the reduction. *)
Theorem splitV2_undefined_result_raises
    (chainId : Z) (fullTokenList : list string) (tokenData : TokenData)
    (multicallResponse : list MulticallResult)
    (balances before : FormattedTokenBalances) (i : nat) (token : string)
    (data : MulticallResult) :
  fullTokenList !! i = Some token →
  multicallResponse !! i = Some data →
  result data = None →
  processSplitBalanceMulticallResponse splitV2 chainId (take i fullTokenList)
    tokenData multicallResponse balances = Ok before →
  processSplitBalanceMulticallResponse splitV2 chainId fullTokenList tokenData
    multicallResponse balances = Throw TypeError.
Proof.
  intros Htoken Hdata Hresult Hbefore.
  unfold processSplitBalanceMulticallResponse in *.
  rewrite <- (take_drop_middle fullTokenList i token Htoken), forEachIndexed_app.
  rewrite Hbefore. simpl.
  rewrite length_take. apply lookup_lt_Some in Htoken as Hlt.
  replace (i `min` length fullTokenList)%nat with i by lia.
  by rewrite (splitV2Callback_undefined _ _ _ _ _ _ _ Hdata Hresult).
Qed.

(** C5, amended. Over lists of equal length, the account reducer and version
    1 of the split reducer complete without an error, and a token all of
    whose indices carry an undefined result gets no entry: the slot it had in
    the mapping handed in, empty for the fetch operations, stays empty. *)
Theorem undefined_results_write_nothing
    (chainId : Z) (fullTokenList : list string) (tokenData : TokenData)
    (multicallResponse : list MulticallResult) (balances : FormattedTokenBalances)
    (token : string) :
  length fullTokenList = length multicallResponse →
  (∀ i data, fullTokenList !! i = Some token → multicallResponse !! i = Some data →
             result data = None) →
  balances !! token = None →
  (∃ after,
     processBalanceMulticallResponse chainId fullTokenList tokenData multicallResponse
       balances = Ok after ∧ after !! token = None) ∧
  (∃ after,
     processSplitBalanceMulticallResponse splitV1 chainId fullTokenList tokenData
       multicallResponse balances = Ok after ∧ after !! token = None).
Proof.
  intros Hlen Hundefined Hempty. split.
  - destruct (forEachIndexed_total
                (balanceCallback chainId tokenData multicallResponse)
                fullTokenList 0 balances) as [after Hafter].
    { intros i x acc Hx. apply balanceCallback_total.
      apply lookup_lt_Some in Hx. simpl. lia. }
    exists after. split; [exact Hafter|]. rewrite <- Hempty.
    eapply forEachIndexed_slot_untouched;
      [apply balanceCallback_writesOwnKey| |exact Hafter].
    intros i b b' Hi Hcall. simpl in Hcall.
    destruct (lookup_lt_is_Some_2 multicallResponse i) as [data Hdata].
    { apply lookup_lt_Some in Hi. lia. }
    rewrite (balanceCallback_undefined _ _ _ _ _ _ _ Hdata
               (Hundefined i data Hi Hdata)) in Hcall.
    by injection Hcall.
  - destruct (forEachIndexed_total
                (splitBalanceCallback splitV1 chainId tokenData multicallResponse)
                fullTokenList 0 balances) as [after Hafter].
    { intros i x acc Hx. apply splitV1Callback_total.
      apply lookup_lt_Some in Hx. simpl. lia. }
    exists after. split; [exact Hafter|]. rewrite <- Hempty.
    eapply forEachIndexed_slot_untouched;
      [apply splitBalanceCallback_writesOwnKey| |exact Hafter].
    intros i b b' Hi Hcall. simpl in Hcall.
    destruct (lookup_lt_is_Some_2 multicallResponse i) as [data Hdata].
    { apply lookup_lt_Some in Hi. lia. }
    rewrite (splitV1Callback_undefined _ _ _ _ _ _ _ Hdata
               (Hundefined i data Hi Hdata)) in Hcall.
    by injection Hcall.
Qed.

Lemma balanceCallback_from_single chainId tokenData multicallResponse token index data
    acc :
  multicallResponse !! index = Some data →
  balanceCallback chainId tokenData multicallResponse token index acc
  = (fun written => written ∪ acc)
      <$> processBalanceMulticallResponse chainId [token] tokenData [data] ∅.
Proof.
  intros Hdata. rewrite balanceCallback_additive.
  by rewrite (balanceCallback_single _ _ _ _ _ _ _ Hdata).
Qed.

Lemma splitBalanceCallback_from_single type chainId tokenData multicallResponse token
    index data acc :
  multicallResponse !! index = Some data →
  splitBalanceCallback type chainId tokenData multicallResponse token index acc
  = (fun written => written ∪ acc)
      <$> processSplitBalanceMulticallResponse type chainId [token] tokenData [data] ∅.
Proof.
  intros Hdata. rewrite splitBalanceCallback_additive.
  by rewrite (splitBalanceCallback_single _ _ _ _ _ _ _ _ Hdata).
Qed.

Lemma balanceCallback_missing chainId tokenData multicallResponse token index acc :
  multicallResponse !! index = None →
  balanceCallback chainId tokenData multicallResponse token index acc = Throw TypeError.
Proof. intros Hnone. unfold balanceCallback, element. by rewrite Hnone. Qed.

Lemma splitBalanceCallback_missing type chainId tokenData multicallResponse token index
    acc :
  multicallResponse !! index = None →
  splitBalanceCallback type chainId tokenData multicallResponse token index acc
  = Throw TypeError.
Proof. intros Hnone. unfold splitBalanceCallback, element. by rewrite Hnone. Qed.

(** C10, amended. A token listed more than once has one entry at most, the
    keys of a mapping being distinct, and the entry is the one computed from
    the result of the last of its occurrences that yields an entry: what an
    earlier occurrence wrote is overwritten, and a later occurrence whose
    result yields nothing leaves it in place. What an occurrence yields is
    what the reducer writes for that token and that result alone. *)
Theorem last_writing_occurrence_wins
    (chainId : Z) (fullTokenList : list string) (tokenData : TokenData)
    (multicallResponse : list MulticallResult) (balances : FormattedTokenBalances)
    (i : nat) (token : string) (data : MulticallResult) :
  fullTokenList !! i = Some token →
  multicallResponse !! i = Some data →
  (∀ entry after,
     processBalanceMulticallResponse chainId [token] tokenData [data] ∅
       = Ok {[token := entry]} →
     (∀ j later, (i < j)%nat → fullTokenList !! j = Some token →
                 multicallResponse !! j = Some later →
                 processBalanceMulticallResponse chainId [token] tokenData [later] ∅
                   = Ok ∅) →
     processBalanceMulticallResponse chainId fullTokenList tokenData multicallResponse
       balances = Ok after →
     after !! token = Some entry ∧ NoDup (map_to_list after).*1) ∧
  (∀ type entry after,
     processSplitBalanceMulticallResponse type chainId [token] tokenData [data] ∅
       = Ok {[token := entry]} →
     (∀ j later, (i < j)%nat → fullTokenList !! j = Some token →
                 multicallResponse !! j = Some later →
                 processSplitBalanceMulticallResponse type chainId [token] tokenData
                   [later] ∅ = Ok ∅) →
     processSplitBalanceMulticallResponse type chainId fullTokenList tokenData
       multicallResponse balances = Ok after →
     after !! token = Some entry ∧ NoDup (map_to_list after).*1).
Proof.
  intros Htoken Hdata. split.
  - intros entry after Hsingle Hlater Hrun.
    split; [|apply NoDup_fst_map_to_list].
    eapply (forEachIndexed_last_writer
              (balanceCallback chainId tokenData multicallResponse));
      [apply balanceCallback_writesOwnKey|exact Htoken| | |exact Hrun].
    + intros b. rewrite (balanceCallback_from_single _ _ _ _ _ _ _ Hdata), Hsingle.
      simpl. by rewrite <- insert_union_singleton_l.
    + intros j b b' Hlt Hj Hcall.
      destruct (multicallResponse !! j) as [later|] eqn:Hlater_data.
      * rewrite (balanceCallback_from_single _ _ _ _ _ _ _ Hlater_data),
          (Hlater j later Hlt Hj Hlater_data) in Hcall.
        simpl in Hcall. injection Hcall as <-. by rewrite (left_id_L ∅ (∪)).
      * by rewrite (balanceCallback_missing _ _ _ _ _ _ Hlater_data) in Hcall.
  - intros type entry after Hsingle Hlater Hrun.
    split; [|apply NoDup_fst_map_to_list].
    eapply (forEachIndexed_last_writer
              (splitBalanceCallback type chainId tokenData multicallResponse));
      [apply splitBalanceCallback_writesOwnKey|exact Htoken| | |exact Hrun].
    + intros b.
      rewrite (splitBalanceCallback_from_single _ _ _ _ _ _ _ _ Hdata), Hsingle.
      simpl. by rewrite <- insert_union_singleton_l.
    + intros j b b' Hlt Hj Hcall.
      destruct (multicallResponse !! j) as [later|] eqn:Hlater_data.
      * rewrite (splitBalanceCallback_from_single _ _ _ _ _ _ _ _ Hlater_data),
          (Hlater j later Hlt Hj Hlater_data) in Hcall.
        simpl in Hcall. injection Hcall as <-. by rewrite (left_id_L ∅ (∪)).
      * by rewrite (splitBalanceCallback_missing _ _ _ _ _ _ _ Hlater_data) in Hcall.
Qed.

(** ** Properties of the metadata resolver *)

Lemma tokenDataCallback_cases multicallResponse token index tokenData :
  (index * 2 + 1 < length multicallResponse)%nat →
  tokenDataCallback multicallResponse token index tokenData
  = Ok (match symbolResult multicallResponse index,
              decimalsResult multicallResponse index with
        | Some symbol, Some decimals =>
            <[token := {| address := token;
                          tokenSymbol := Some symbol;
                          tokenDecimals := Some decimals |}]> tokenData
        | _, _ => tokenData
        end).
Proof.
  intros Hlt.
  destruct (lookup_lt_is_Some_2 multicallResponse (index * 2)%nat) as [d1 Hd1]; [lia|].
  destruct (lookup_lt_is_Some_2 multicallResponse (index * 2 + 1)%nat) as [d2 Hd2];
    [lia|].
  unfold tokenDataCallback, symbolResult, decimalsResult.
  rewrite (element_lookup _ _ _ Hd1), bind_Ok_l, (element_lookup _ _ _ Hd2), bind_Ok_l.
  rewrite Hd1, Hd2. simpl.
  by destruct (asString (result d1)), (asNumber (result d2)).
Qed.

Lemma getTokenDataCalls_filtered tokens :
  zeroAddress ∉ tokens → ∃ calls, getTokenDataCalls tokens = Ok calls.
Proof.
  intros Hzero. unfold getTokenDataCalls.
  assert (∃ pairs, mapThrowing
            (fun token =>
               if decide (token = zeroAddress) then
                 Throw (Error "Cannot fetch data for address zero")
               else
                 Ok [ {| target := token; abi := erc20Abi;
                         functionName := "symbol"; args := [] |};
                      {| target := token; abi := erc20Abi;
                         functionName := "decimals"; args := [] |} ])
            tokens = Ok pairs) as [pairs ->]; [|by eauto].
  induction tokens as [|token tokens IH]; simpl; [by eauto|].
  rewrite decide_False by (intros ->; apply Hzero; left). simpl.
  destruct IH as [pairs ->]; [|by eauto].
  intros Hin. apply Hzero. by right.
Qed.

Lemma filter_no_zero (tokens : list string) :
  zeroAddress ∉ filter (fun token => token ≠ zeroAddress) tokens.
Proof. rewrite list_elem_of_filter. by intros [Hne _]. Qed.

(** C6. Given the response to its calls, two results for each token that is
    not the native sentinel, the resolver returns a mapping, without an error
    for any token. The mapping holds a token exactly when the token is at an
    index whose symbol result and decimals result are both defined, and the
    entry of the token carries the token, a symbol and decimals that are the
    two results of such an index. *)
Theorem fetchTokenData_keeps_resolved_tokens
    (tokens : list string) (publicClient : SplitsPublicClient)
    (multicallResponse : list MulticallResult) :
  let filteredTokens := filter (fun token => token ≠ zeroAddress) tokens in
  (contractCalls ← getTokenDataCalls filteredTokens;
   multicall publicClient contractCalls) = Ok multicallResponse →
  length multicallResponse = (2 * length filteredTokens)%nat →
  ∃ tokenData,
    fetchTokenData tokens publicClient = Ok tokenData ∧
    ∀ token,
      (is_Some (tokenData !! token) ↔
       ∃ index, filteredTokens !! index = Some token ∧
                is_Some (symbolResult multicallResponse index) ∧
                is_Some (decimalsResult multicallResponse index)) ∧
      (∀ entry, tokenData !! token = Some entry →
       ∃ index symbol decimals,
         filteredTokens !! index = Some token ∧
         symbolResult multicallResponse index = Some symbol ∧
         decimalsResult multicallResponse index = Some decimals ∧
         entry = {| address := token;
                    tokenSymbol := Some symbol;
                    tokenDecimals := Some decimals |}).
Proof.
  intros filteredTokens Hresponse Hlen.
  assert (∀ i x, filteredTokens !! i = Some x →
                 (i * 2 + 1 < length multicallResponse)%nat) as Hrange.
  { intros i x Hx%lookup_lt_Some. lia. }
  unfold fetchTokenData. fold filteredTokens.
  destruct (getTokenDataCalls filteredTokens) as [calls|e]; [|done].
  simpl in Hresponse. rewrite bind_Ok_l, Hresponse, bind_Ok_l.
  destruct (forEachIndexed_total (tokenDataCallback multicallResponse)
              filteredTokens 0 ∅) as [tokenData Hrun].
  { intros i x acc Hx. rewrite tokenDataCallback_cases; [by eauto|].
    simpl. by eapply Hrange. }
  exists tokenData. split; [exact Hrun|].
  assert (∀ token entry, tokenData !! token = Some entry →
          ∃ index symbol decimals,
            filteredTokens !! index = Some token ∧
            symbolResult multicallResponse index = Some symbol ∧
            decimalsResult multicallResponse index = Some decimals ∧
            entry = {| address := token;
                       tokenSymbol := Some symbol;
                       tokenDecimals := Some decimals |}) as Hsound.
  { apply (forEachIndexed_invariant_at
             (fun acc : TokenData => ∀ token entry, acc !! token = Some entry →
                ∃ index symbol decimals,
                  filteredTokens !! index = Some token ∧
                  symbolResult multicallResponse index = Some symbol ∧
                  decimalsResult multicallResponse index = Some decimals ∧
                  entry = {| address := token;
                             tokenSymbol := Some symbol;
                             tokenDecimals := Some decimals |})
             (tokenDataCallback multicallResponse) filteredTokens 0 ∅ tokenData);
      [|by intros ? ? ?%lookup_empty_Some|exact Hrun].
    intros i x acc acc' Hx Hacc Hcall token entry Hentry. simpl in Hcall.
    rewrite tokenDataCallback_cases in Hcall by (by eapply Hrange).
    injection Hcall as <-.
    destruct (symbolResult multicallResponse i) as [symbol|] eqn:Hs;
      [|by apply Hacc].
    destruct (decimalsResult multicallResponse i) as [decimals|] eqn:Hd;
      [|by apply Hacc].
    destruct (decide (x = token)) as [->|Hne].
    - rewrite lookup_insert_eq in Hentry. injection Hentry as <-.
      exists i, symbol, decimals. done.
    - rewrite lookup_insert_ne in Hentry by done. by apply Hacc. }
  intros token. split; [|by apply Hsound].
  split.
  - intros [entry Hentry].
    destruct (Hsound token entry Hentry) as (index & symbol & decimals & ? & Hs & Hd & _).
    exists index. rewrite Hs, Hd. eauto.
  - intros (index & Hindex & [symbol Hs] & [decimals Hd]).
    rewrite <- (take_drop_middle filteredTokens index token Hindex) in Hrun.
    rewrite forEachIndexed_app in Hrun.
    destruct (forEachIndexed (tokenDataCallback multicallResponse)
                (take index filteredTokens) 0 ∅) as [acc|e]; [|done].
    simpl in Hrun. rewrite length_take in Hrun.
    apply lookup_lt_Some in Hindex as Hlt.
    replace (index `min` length filteredTokens)%nat with index in Hrun by lia.
    rewrite tokenDataCallback_cases, Hs, Hd, bind_Ok_l in Hrun
      by (by eapply Hrange).
    apply (forEachIndexed_invariant (fun acc : TokenData => is_Some (acc !! token))
             (tokenDataCallback multicallResponse) (drop (S index) filteredTokens))
      in Hrun; [done| |by rewrite lookup_insert_eq].
    intros x j b b' _ Hb Hcall. unfold tokenDataCallback in Hcall.
    destruct (element multicallResponse (j * 2)) as [d1|]; [|done].
    destruct (element multicallResponse (j * 2 + 1)) as [d2|]; [|done].
    simpl in Hcall.
    destruct (asString (result d1)), (asNumber (result d2));
      injection Hcall as <-; try done.
    destruct (decide (x = token)) as [->|Hne];
      [by rewrite lookup_insert_eq | by rewrite lookup_insert_ne].
Qed.

(** ** The native entry *)

Lemma balanceCallback_native chainId tokenData multicallResponse token index acc acc' :
  nativeRecord chainId acc →
  balanceCallback chainId tokenData multicallResponse token index acc = Ok acc' →
  nativeRecord chainId acc'.
Proof.
  intros Hacc. unfold balanceCallback.
  destruct (element multicallResponse index) as [data|e]; simpl; [|done].
  destruct (asBigint (result data)) as [balance|]; simpl; [|by intros [= <-]].
  destruct (decide (token = zeroAddress)) as [->|Hne]; simpl.
  { intros [= <-] entry. rewrite lookup_insert_eq. by intros [= <-]. }
  destruct (tokenData !! token) as [data'|]; simpl; [|by intros [= <-]].
  destruct (tokenSymbol data'), (tokenDecimals data'); simpl; intros [= <-]; try done.
  intros entry. rewrite lookup_insert_ne by done. apply Hacc.
Qed.

Lemma splitBalanceCallback_native type chainId tokenData multicallResponse token index
    acc acc' :
  nativeRecord chainId acc →
  splitBalanceCallback type chainId tokenData multicallResponse token index acc
    = Ok acc' →
  nativeRecord chainId acc'.
Proof.
  intros Hacc. unfold splitBalanceCallback.
  destruct (element multicallResponse index) as [data|e]; simpl; [|done].
  destruct (splitBalance type data) as [balance| |e]; simpl;
    [|by intros [= <-]|done].
  unfold splitTokenInfo.
  destruct (decide (token = zeroAddress)) as [->|Hne].
  { destruct balance as [balance|]; [|by intros [= <-]].
    destruct (2 <? balance); intros [= <-]; [|done].
    intros entry. rewrite lookup_insert_eq. by intros [= <-]. }
  destruct (tokenData !! token) as [data'|]; [|by intros [= <-]].
  destruct (tokenSymbol data'), (tokenDecimals data'); try by intros [= <-].
  destruct balance as [balance|]; [|by intros [= <-]].
  destruct (2 <? balance); intros [= <-]; [|done].
  intros entry. rewrite lookup_insert_ne by done. apply Hacc.
Qed.

Lemma nativeRecord_empty chainId : nativeRecord chainId ∅.
Proof. by intros entry ?%lookup_empty_Some. Qed.

Lemma processBalanceMulticallResponse_native chainId fullTokenList tokenData
    multicallResponse balances after :
  nativeRecord chainId balances →
  processBalanceMulticallResponse chainId fullTokenList tokenData multicallResponse
    balances = Ok after →
  nativeRecord chainId after.
Proof.
  intros Hbalances Hrun.
  eapply (forEachIndexed_invariant (nativeRecord chainId)); [|exact Hbalances|exact Hrun].
  intros x index acc acc' _. apply balanceCallback_native.
Qed.

Lemma processSplitBalanceMulticallResponse_native type chainId fullTokenList tokenData
    multicallResponse balances after :
  nativeRecord chainId balances →
  processSplitBalanceMulticallResponse type chainId fullTokenList tokenData
    multicallResponse balances = Ok after →
  nativeRecord chainId after.
Proof.
  intros Hbalances Hrun.
  eapply (forEachIndexed_invariant (nativeRecord chainId)); [|exact Hbalances|exact Hrun].
  intros x index acc acc' _. apply splitBalanceCallback_native.
Qed.

(** The resolver holds no metadata under the zero address. *)
Lemma fetchTokenData_no_zero tokens publicClient tokenData :
  fetchTokenData tokens publicClient = Ok tokenData → tokenData !! zeroAddress = None.
Proof.
  unfold fetchTokenData.
  destruct (getTokenDataCalls _) as [calls|e]; [|done]. rewrite bind_Ok_l.
  destruct (multicall publicClient calls) as [response|e]; [|done]. rewrite bind_Ok_l.
  apply (forEachIndexed_invariant (fun acc : TokenData => acc !! zeroAddress = None));
    [|done].
  intros x index acc acc' Hx Hacc. unfold tokenDataCallback.
  destruct (element response (index * 2)) as [d1|]; [|done].
  destruct (element response (index * 2 + 1)) as [d2|]; [|done]. simpl.
  destruct (asString (result d1)), (asNumber (result d2)); intros [= <-]; try done.
  rewrite lookup_insert_ne; [done|].
  intros ->. by apply filter_no_zero in Hx.
Qed.

Lemma tokenBalanceCallback_native chainId erc20TokenData balanceData index acc acc' :
  erc20TokenData !! zeroAddress = None →
  nativeRecord chainId acc →
  tokenBalanceCallback erc20TokenData balanceData index acc = Ok acc' →
  nativeRecord chainId acc'.
Proof.
  intros Hzero Hacc. unfold tokenBalanceCallback.
  destruct (erc20TokenData !! contractAddress balanceData) as [data|] eqn:Hdata;
    [|by intros [= <-]].
  destruct (getAddress (contractAddress balanceData)) as [formatted|e] eqn:Hformatted;
    [|done].
  rewrite bind_Ok_l.
  destruct (BigInt (tokenBalance balanceData)) as [raw|e]; [|done].
  rewrite bind_Ok_l. intros [= <-] entry.
  rewrite lookup_insert_ne; [apply Hacc|].
  intros ->. apply getAddress_zero_only in Hformatted. congruence.
Qed.

Lemma writeTokenBalances_native chainId erc20Balances rpcPublicClient balances after :
  nativeRecord chainId balances →
  writeTokenBalances erc20Balances rpcPublicClient balances = Ok after →
  nativeRecord chainId after.
Proof.
  intros Hbalances. unfold writeTokenBalances.
  destruct (fetchTokenData _ rpcPublicClient) as [erc20TokenData|e] eqn:Hdata; [|done].
  rewrite bind_Ok_l. apply fetchTokenData_no_zero in Hdata.
  intros Hrun.
  eapply (forEachIndexed_invariant (nativeRecord chainId)); [|exact Hbalances|exact Hrun].
  intros x index acc acc' _. by apply tokenBalanceCallback_native.
Qed.

Lemma loopBody_native chainId address rpcPublicClient served currentKey balances
    nextKey after :
  nativeRecord chainId balances →
  (loopBody chainId address rpcPublicClient served currentKey balances).2
    = Ok (nextKey, after) →
  nativeRecord chainId after.
Proof.
  intros Hbalances. unfold loopBody. simpl.
  destruct (alchemy_getTokenBalances _ _ _ _) as [page|e]; [|done]. rewrite bind_Ok_l.
  destruct (truthy currentKey); simpl.
  - destruct (writeTokenBalances page rpcPublicClient balances) as [b|e] eqn:Hwrite;
      [|done].
    simpl. intros [= _ <-]. by eapply writeTokenBalances_native.
  - destruct (getBalance rpcPublicClient address) as [ethBalance|e]; [|done]. simpl.
    destruct (writeTokenBalances page rpcPublicClient _) as [b|e] eqn:Hwrite; [|done].
    simpl. intros [= _ <-]. eapply writeTokenBalances_native; [|exact Hwrite].
    intros entry. rewrite lookup_insert_eq. by intros [= <-].
Qed.

Lemma doWhile_S fuel chainId address rpcPublicClient served currentKey balances sent :
  doWhile (S fuel) chainId address rpcPublicClient served currentKey balances sent
  = match loopBody chainId address rpcPublicClient served currentKey balances with
    | (promisesArray, Throw e) =>
        Some {| requests := sent ++ promisesArray; iterations := S served;
                completed := Throw e |}
    | (promisesArray, Ok (nextKey, balances')) =>
        if truthy nextKey then
          doWhile fuel chainId address rpcPublicClient (S served) nextKey balances'
            (sent ++ promisesArray)
        else
          Some {| requests := sent ++ promisesArray; iterations := S served;
                  completed := Ok balances' |}
    end.
Proof.
  simpl.
  by destruct (loopBody chainId address rpcPublicClient served currentKey balances)
    as [promisesArray [[nextKey balances']|e]].
Qed.

Lemma doWhile_native fuel chainId address rpcPublicClient :
  ∀ served currentKey balances sent run after,
    nativeRecord chainId balances →
    doWhile fuel chainId address rpcPublicClient served currentKey balances sent
      = Some run →
    completed run = Ok after →
    nativeRecord chainId after.
Proof.
  induction fuel as [|fuel IH]; intros served currentKey balances sent run after
    Hbalances Hrun Hcompleted; [done|].
  rewrite doWhile_S in Hrun.
  pose proof (loopBody_native chainId address rpcPublicClient served currentKey
                balances) as Hbody.
  destruct (loopBody chainId address rpcPublicClient served currentKey balances)
    as [promisesArray [[nextKey balances']|e]]; simpl in Hbody.
  - specialize (Hbody nextKey balances' Hbalances eq_refl).
    destruct (truthy nextKey).
    + by eapply IH.
    + injection Hrun as <-. simpl in Hcompleted. by injection Hcompleted as <-.
  - injection Hrun as <-. done.
Qed.

(** A token's metadata is not looked at on the way to the native entry. *)
Lemma forEachIndexed_related {A St} (R : St → St → Prop) (E : exn → exn → Prop)
    (callback callback' : A → nat → St → outcome St) l :
  (∀ x index acc acc', R acc acc' →
     match callback x index acc, callback' x index acc' with
     | Ok b, Ok b' => R b b'
     | Throw e, Throw e' => E e e'
     | _, _ => False
     end) →
  ∀ index acc acc', R acc acc' →
    match forEachIndexed callback l index acc, forEachIndexed callback' l index acc' with
    | Ok b, Ok b' => R b b'
    | Throw e, Throw e' => E e e'
    | _, _ => False
    end.
Proof.
  intros Hstep. induction l as [|x l IH]; intros index acc acc' Hacc; simpl; [done|].
  specialize (Hstep x index acc acc' Hacc).
  destruct (callback x index acc) as [b|e], (callback' x index acc') as [b'|e'];
    simpl; try done.
  by apply IH.
Qed.

Lemma processBalanceMulticallResponse_ignores_metadata chainId fullTokenList
    tokenData tokenData' multicallResponse balances :
  sameNativeEntry
    (processBalanceMulticallResponse chainId fullTokenList tokenData multicallResponse
       balances)
    (processBalanceMulticallResponse chainId fullTokenList tokenData' multicallResponse
       balances).
Proof.
  apply (forEachIndexed_related
           (fun b b' : FormattedTokenBalances => b !! zeroAddress = b' !! zeroAddress)
           eq); [|done].
  intros token index acc acc' Hacc. unfold balanceCallback.
  destruct (element multicallResponse index) as [data|e]; simpl; [|done].
  destruct (asBigint (result data)) as [balance|]; simpl; [|done].
  destruct (decide (token = zeroAddress)) as [->|Hne]; simpl.
  { by rewrite !lookup_insert_eq. }
  destruct (tokenData !! token) as [d|], (tokenData' !! token) as [d'|]; simpl;
    repeat case_match; simplify_eq; rewrite ?lookup_insert_ne by done; done.
Qed.

Lemma processSplitBalanceMulticallResponse_ignores_metadata type chainId fullTokenList
    tokenData tokenData' multicallResponse balances :
  sameNativeEntry
    (processSplitBalanceMulticallResponse type chainId fullTokenList tokenData
       multicallResponse balances)
    (processSplitBalanceMulticallResponse type chainId fullTokenList tokenData'
       multicallResponse balances).
Proof.
  apply (forEachIndexed_related
           (fun b b' : FormattedTokenBalances => b !! zeroAddress = b' !! zeroAddress)
           eq); [|done].
  intros token index acc acc' Hacc. unfold splitBalanceCallback.
  destruct (element multicallResponse index) as [data|e]; simpl; [|done].
  destruct (splitBalance type data) as [balance| |e]; simpl; [|done|done].
  unfold splitTokenInfo.
  destruct (decide (token = zeroAddress)) as [->|Hne].
  { destruct balance as [balance|]; [|done].
    destruct (2 <? balance); [|done]. by rewrite !lookup_insert_eq. }
  destruct (tokenData !! token) as [d|], (tokenData' !! token) as [d'|];
    repeat case_match; simplify_eq; rewrite ?lookup_insert_ne by done; done.
Qed.

(** C8. Whichever operation returns it, the entry under the zero address has
    18 decimals and the symbol that the table of chains registers for the
    chain, "ETH" when the chain is not in the table; and the reducers come to
    the same native entry, or to the same error, whatever the token metadata
    they are handed. *)
Theorem native_entry_comes_from_the_chain (chainId : Z) :
  (∀ accountAddress publicClient fullTokenList balances,
     fetchActiveBalances chainId accountAddress publicClient fullTokenList
       = Ok balances →
     nativeRecord chainId balances) ∧
  (∀ type splitAddress publicClient fullTokenList balances,
     fetchSplitActiveBalances type chainId splitAddress publicClient fullTokenList
       = Ok balances →
     nativeRecord chainId balances) ∧
  (∀ fuel address rpcPublicClient run balances,
     fetchContractBalancesWithAlchemy fuel chainId address rpcPublicClient = Some run →
     completed run = Ok balances →
     nativeRecord chainId balances) ∧
  (∀ fullTokenList tokenData tokenData' multicallResponse balances,
     sameNativeEntry
       (processBalanceMulticallResponse chainId fullTokenList tokenData
          multicallResponse balances)
       (processBalanceMulticallResponse chainId fullTokenList tokenData'
          multicallResponse balances)) ∧
  (∀ type fullTokenList tokenData tokenData' multicallResponse balances,
     sameNativeEntry
       (processSplitBalanceMulticallResponse type chainId fullTokenList tokenData
          multicallResponse balances)
       (processSplitBalanceMulticallResponse type chainId fullTokenList tokenData'
          multicallResponse balances)).
Proof.
  split; [|split; [|split; [|split]]].
  - intros accountAddress publicClient fullTokenList balances. unfold fetchActiveBalances.
    destruct (fetchTokenData _ publicClient) as [tokenData|e]; [|done].
    rewrite bind_Ok_l.
    destruct (multicall publicClient _) as [response|e]; [|done]. rewrite bind_Ok_l.
    apply processBalanceMulticallResponse_native, nativeRecord_empty.
  - intros type splitAddress publicClient fullTokenList balances.
    unfold fetchSplitActiveBalances.
    destruct (mapThrowing getAddress fullTokenList) as [formatted|e]; [|done].
    rewrite bind_Ok_l.
    destruct (fetchTokenData _ publicClient) as [tokenData|e]; [|done].
    rewrite bind_Ok_l.
    destruct (multicall publicClient _) as [response|e]; [|done]. rewrite bind_Ok_l.
    apply processSplitBalanceMulticallResponse_native, nativeRecord_empty.
  - intros fuel address rpcPublicClient run balances.
    unfold fetchContractBalancesWithAlchemy.
    destruct (isAlchemyPublicClient rpcPublicClient); simpl.
    + apply doWhile_native, nativeRecord_empty.
    + by intros [= <-].
  - intros. apply processBalanceMulticallResponse_ignores_metadata.
  - intros. apply processSplitBalanceMulticallResponse_ignores_metadata.
Qed.

(** ** The spelling of the keys *)

Lemma mapThrowing_getAddress tokens formatted :
  mapThrowing getAddress tokens = Ok formatted →
  Forall (fun token => getAddress token = Ok token) formatted.
Proof.
  revert formatted. induction tokens as [|token tokens IH]; intros formatted; simpl.
  - by intros [= <-].
  - destruct (getAddress token) as [t|e] eqn:Ht; [|done]. rewrite bind_Ok_l.
    destruct (mapThrowing getAddress tokens) as [ts|e]; [|done]. rewrite bind_Ok_l.
    intros [= <-]. constructor; [by eapply getAddress_idempotent | by apply IH].
Qed.

Lemma checksummedKeys_insert {V} (balances : gmap string V) key entry :
  getAddress key = Ok key → checksummedKeys balances →
  checksummedKeys (<[key := entry]> balances).
Proof.
  intros Hkey Hbalances k. destruct (decide (key = k)) as [<-|Hne]; [done|].
  rewrite lookup_insert_ne by done. apply Hbalances.
Qed.

Lemma writeTokenBalances_checksummed erc20Balances rpcPublicClient balances after :
  checksummedKeys balances →
  writeTokenBalances erc20Balances rpcPublicClient balances = Ok after →
  checksummedKeys after.
Proof.
  intros Hbalances. unfold writeTokenBalances.
  destruct (fetchTokenData _ rpcPublicClient) as [erc20TokenData|e]; [|done].
  rewrite bind_Ok_l. intros Hrun.
  eapply (forEachIndexed_invariant checksummedKeys); [|exact Hbalances|exact Hrun].
  intros x index acc acc' _ Hacc. unfold tokenBalanceCallback.
  destruct (erc20TokenData !! contractAddress x); [|by intros [= <-]].
  destruct (getAddress (contractAddress x)) as [formatted|e] eqn:Hformatted; [|done].
  rewrite bind_Ok_l.
  destruct (BigInt (tokenBalance x)) as [raw|e]; [|done].
  rewrite bind_Ok_l. intros [= <-].
  apply checksummedKeys_insert; [by eapply getAddress_idempotent | done].
Qed.

Lemma doWhile_checksummed fuel chainId address rpcPublicClient :
  ∀ served currentKey balances sent run after,
    checksummedKeys balances →
    doWhile fuel chainId address rpcPublicClient served currentKey balances sent
      = Some run →
    completed run = Ok after →
    checksummedKeys after.
Proof.
  induction fuel as [|fuel IH]; intros served currentKey balances sent run after
    Hbalances Hrun Hcompleted; [done|].
  simpl in Hrun. unfold loopBody in Hrun.
  destruct (alchemy_getTokenBalances _ _ _ _) as [page|e];
    [|by injection Hrun as <-].
  rewrite bind_Ok_l in Hrun.
  assert (∀ b, checksummedKeys b →
            match (b' ← writeTokenBalances page rpcPublicClient b;
                   Ok (pageKey page, b'))
            with
            | Ok (_, b') => checksummedKeys b'
            | Throw _ => True
            end) as Hwrite.
  { intros b Hb.
    destruct (writeTokenBalances page rpcPublicClient b) as [b'|e] eqn:Hw; [|done].
    simpl. by eapply writeTokenBalances_checksummed. }
  destruct (truthy currentKey); simpl in Hrun.
  - specialize (Hwrite balances Hbalances).
    destruct (b' ← writeTokenBalances page rpcPublicClient balances;
              Ok (pageKey page, b')) as [[nextKey b']|e];
      [|by injection Hrun as <-].
    destruct (truthy nextKey); [by eapply IH|].
    injection Hrun as <-. simpl in Hcompleted. by injection Hcompleted as <-.
  - destruct (getBalance rpcPublicClient address) as [ethBalance|e];
      [|by injection Hrun as <-].
    simpl in Hrun.
    match type of Hrun with
    | context [writeTokenBalances page rpcPublicClient ?b] =>
        specialize (Hwrite b
          (checksummedKeys_insert balances zeroAddress _ getAddress_zeroAddress
             Hbalances))
    end.
    destruct (b' ← writeTokenBalances page rpcPublicClient _;
              Ok (pageKey page, b')) as [[nextKey b']|e];
      [|by injection Hrun as <-].
    destruct (truthy nextKey); [by eapply IH|].
    injection Hrun as <-. simpl in Hcompleted. by injection Hcompleted as <-.
Qed.

(** The split operation and the paginated fetcher spell every key of the
    mapping they return as [getAddress] does. *)
Lemma normalized_keys_of_the_split_and_alchemy_operations :
  (∀ type chainId splitAddress publicClient fullTokenList balances,
     fetchSplitActiveBalances type chainId splitAddress publicClient fullTokenList
       = Ok balances →
     checksummedKeys balances) ∧
  (∀ fuel chainId address rpcPublicClient run balances,
     fetchContractBalancesWithAlchemy fuel chainId address rpcPublicClient = Some run →
     completed run = Ok balances →
     checksummedKeys balances).
Proof.
  split.
  - intros type chainId splitAddress publicClient fullTokenList balances.
    unfold fetchSplitActiveBalances.
    destruct (mapThrowing getAddress fullTokenList) as [formatted|e] eqn:Hformatted;
      [|done].
    rewrite bind_Ok_l. apply mapThrowing_getAddress in Hformatted.
    destruct (fetchTokenData _ publicClient) as [tokenData|e]; [|done].
    rewrite bind_Ok_l.
    destruct (multicall publicClient _) as [response|e]; [|done]. rewrite bind_Ok_l.
    intros Hrun.
    eapply (forEachIndexed_invariant checksummedKeys); [| |exact Hrun].
    + intros x index acc acc' Hx Hacc Hcall.
      destruct (splitBalanceCallback_writesOwnKey _ _ _ _ _ _ _ _ Hcall)
        as [->|[entry ->]]; [done|].
      apply checksummedKeys_insert; [|done].
      rewrite Forall_forall in Hformatted. by apply Hformatted.
    + by intros key [? ?%lookup_empty_Some].
  - intros fuel chainId address rpcPublicClient run balances.
    unfold fetchContractBalancesWithAlchemy.
    destruct (isAlchemyPublicClient rpcPublicClient); simpl.
    + apply doWhile_checksummed. by intros key [? ?%lookup_empty_Some].
    + by intros [= <-].
Qed.

(** ** The pagination loop *)

Lemma forEachIndexed_succeeds {A St} (callback : A → nat → St → outcome St) l :
  (∀ x index acc acc', succeeds (callback x index acc) →
                       succeeds (callback x index acc')) →
  ∀ index acc acc',
    succeeds (forEachIndexed callback l index acc) →
    succeeds (forEachIndexed callback l index acc').
Proof.
  intros Hstep. induction l as [|x l IH]; intros index acc acc'; simpl; [by eexists|].
  intros [final Hfinal].
  destruct (callback x index acc) as [b|e] eqn:Hb; [|done].
  destruct (Hstep x index acc acc') as [b' Hb']; [by eexists|].
  rewrite Hb'. simpl. simpl in Hfinal. apply (IH (S index) b b'). by eexists.
Qed.

(** Whether a page can be written does not depend on what was written before. *)
Lemma writeTokenBalances_succeeds erc20Balances rpcPublicClient balances :
  succeeds (writeTokenBalances erc20Balances rpcPublicClient ∅) →
  succeeds (writeTokenBalances erc20Balances rpcPublicClient balances).
Proof.
  unfold writeTokenBalances.
  destruct (fetchTokenData _ rpcPublicClient) as [erc20TokenData|e];
    [|by intros [? ?]].
  rewrite !bind_Ok_l. apply forEachIndexed_succeeds.
  intros x index acc acc'. unfold tokenBalanceCallback.
  destruct (erc20TokenData !! contractAddress x); [|by eexists].
  destruct (getAddress (contractAddress x)); [|by intros [? ?]].
  destruct (BigInt (tokenBalance x)); [|by intros [? ?]].
  by eexists.
Qed.

Lemma loopBody_requests chainId address rpcPublicClient served currentKey balances :
  (loopBody chainId address rpcPublicClient served currentKey balances).1
  = requestsOfPass address currentKey.
Proof. done. Qed.

(** A pass that is served a page and can write it ends with the page's key. *)
Lemma loopBody_served chainId address rpcPublicClient served currentKey balances page
    ethBalance :
  alchemy_getTokenBalances rpcPublicClient served address
    (if truthy currentKey then currentKey else None) = Ok page →
  getBalance rpcPublicClient address = Ok ethBalance →
  succeeds (writeTokenBalances page rpcPublicClient ∅) →
  ∃ balances',
    loopBody chainId address rpcPublicClient served currentKey balances
    = (requestsOfPass address currentKey, Ok (pageKey page, balances')).
Proof.
  intros Hpage Hnative Hwrite. unfold loopBody, requestsOfPass.
  rewrite Hpage, bind_Ok_l.
  destruct (truthy currentKey); simpl negb; cbv iota.
  - rewrite bind_Ok_l.
    destruct (writeTokenBalances_succeeds page rpcPublicClient balances Hwrite)
      as [balances' ->].
    by exists balances'.
  - rewrite Hnative, !bind_Ok_l.
    match goal with
    | |- context [writeTokenBalances page rpcPublicClient ?b] =>
        destruct (writeTokenBalances_succeeds page rpcPublicClient b Hwrite)
          as [balances' ->]
    end.
    by exists balances'.
Qed.

(** The requests of a run that ended, however it ended: those of the first
    pass, then one token balance request for each further pass, each with
    the non-empty key that the pass before ended with. *)
Lemma doWhile_requests fuel chainId address rpcPublicClient :
  ∀ served currentKey balances sent run,
    doWhile fuel chainId address rpcPublicClient served currentKey balances sent
      = Some run →
    ∃ cursors,
      requests run = sent ++ requestsOfPass address currentKey
                          ++ map (TokenBalancesRequest address) cursors ∧
      Forall (fun cursor => truthy cursor = true) cursors ∧
      iterations run = (S served + length cursors)%nat.
Proof.
  induction fuel as [|fuel IH]; intros served currentKey balances sent run Hrun;
    [done|].
  rewrite doWhile_S in Hrun.
  pose proof (loopBody_requests chainId address rpcPublicClient served currentKey
                balances) as Hrequests.
  destruct (loopBody chainId address rpcPublicClient served currentKey balances)
    as [promisesArray [[nextKey balances']|e]]; simpl in Hrequests; subst promisesArray.
  - destruct (truthy nextKey) eqn:Hnext.
    + apply IH in Hrun as (cursors & Hreq & Hcursors & Hiterations).
      exists (nextKey :: cursors). split; [|split].
      * rewrite Hreq. unfold requestsOfPass at 2. rewrite Hnext. simpl.
        by rewrite <- !app_assoc.
      * by constructor.
      * rewrite Hiterations. simpl. lia.
    + injection Hrun as <-. exists []. simpl.
      split; [by rewrite app_nil_r|]. split; [constructor|lia].
  - injection Hrun as <-. exists []. simpl.
    split; [by rewrite app_nil_r|]. split; [constructor|lia].
Qed.

(** A finite sequence of pages, all with a key but the last: the loop makes
    one pass for each page and stops after the last. *)
Lemma doWhile_finite chainId address rpcPublicClient ethBalance
    (earlier : list TokenBalances) (last : TokenBalances) :
  ∀ served currentKey balances sent fuel,
    (∀ j page, (earlier ++ [last]) !! j = Some page →
       alchemy_getTokenBalances rpcPublicClient (served + j) address
         (cursorFor (if truthy currentKey then currentKey else None)
            (earlier ++ [last]) j) = Ok page) →
    getBalance rpcPublicClient address = Ok ethBalance →
    (∀ page, page ∈ earlier ++ [last] →
       succeeds (writeTokenBalances page rpcPublicClient ∅)) →
    Forall (fun page => truthy (pageKey page) = true) earlier →
    truthy (pageKey last) = false →
    ((fuel ≤ length earlier)%nat →
     doWhile fuel chainId address rpcPublicClient served currentKey balances sent
       = None) ∧
    ((length earlier < fuel)%nat →
     ∃ balances',
       doWhile fuel chainId address rpcPublicClient served currentKey balances sent
       = Some {| requests :=
                   sent ++ requestsOfPass address currentKey
                     ++ map (fun page => TokenBalancesRequest address (pageKey page))
                          earlier;
                 iterations := (S served + length earlier)%nat;
                 completed := Ok balances' |}).
Proof.
  induction earlier as [|first earlier IH];
    intros served currentKey balances sent fuel Hapi Hnative Hwrite Hkeys Hlast.
  - split; [intros Hfuel; by replace fuel with 0%nat by (simpl in Hfuel; lia)|].
    intros Hfuel. destruct fuel as [|fuel]; [simpl in Hfuel; lia|].
    rewrite doWhile_S.
    destruct (loopBody_served chainId address rpcPublicClient served currentKey
                balances last ethBalance) as [balances' ->];
      [|done|apply Hwrite; left|].
    { specialize (Hapi 0%nat last eq_refl). by rewrite Nat.add_0_r in Hapi. }
    rewrite Hlast. exists balances'. simpl. by rewrite app_nil_r, Nat.add_0_r.
  - apply Forall_cons in Hkeys as [Hfirst Hkeys].
    destruct fuel as [|fuel]; [split; [done|simpl; lia]|].
    rewrite doWhile_S.
    destruct (loopBody_served chainId address rpcPublicClient served currentKey
                balances first ethBalance) as [balances' ->];
      [|done|apply Hwrite; left|].
    { specialize (Hapi 0%nat first eq_refl). by rewrite Nat.add_0_r in Hapi. }
    rewrite Hfirst.
    destruct (IH (S served) (pageKey first) balances'
                (sent ++ requestsOfPass address currentKey) fuel) as [Hout Hin];
      [|done| |done|done|].
    + intros j page Hj. specialize (Hapi (S j) page Hj).
      replace (served + S j)%nat with (S served + j)%nat in Hapi by lia.
      rewrite Hfirst. destruct j as [|j]; [exact Hapi|]. exact Hapi.
    + intros page Hpage. apply Hwrite. by right.
    + split.
      * intros Hfuel. apply Hout. simpl in Hfuel. lia.
      * intros Hfuel. destruct Hin as [final ->]; [simpl in Hfuel; lia|].
        exists final. f_equal. f_equal.
        -- unfold requestsOfPass at 2. rewrite Hfirst. simpl.
           by rewrite <- !app_assoc.
        -- simpl. lia.
Qed.

(** A sequence of pages that all carry a key: the loop is still running after
    any number of passes. *)
Lemma doWhile_endless chainId address rpcPublicClient ethBalance
    (pages : nat → TokenBalances) :
  (∀ j, alchemy_getTokenBalances rpcPublicClient j address
          (match j with O => None | S j' => pageKey (pages j') end) = Ok (pages j)) →
  getBalance rpcPublicClient address = Ok ethBalance →
  (∀ j, succeeds (writeTokenBalances (pages j) rpcPublicClient ∅)) →
  (∀ j, truthy (pageKey (pages j)) = true) →
  ∀ fuel served currentKey balances sent,
    (if truthy currentKey then currentKey else None)
      = match served with O => None | S j' => pageKey (pages j') end →
    doWhile fuel chainId address rpcPublicClient served currentKey balances sent = None.
Proof.
  intros Hapi Hnative Hwrite Hkeys.
  induction fuel as [|fuel IH]; intros served currentKey balances sent Hcursor; [done|].
  rewrite doWhile_S.
  destruct (loopBody_served chainId address rpcPublicClient served currentKey
              balances (pages served) ethBalance) as [balances' ->]; [|done|done|].
  { rewrite Hcursor. apply Hapi. }
  rewrite Hkeys. apply IH. by rewrite Hkeys.
Qed.

(** C7. On an Alchemy client: a run that has ended sent the token balance
    request without a key and the native balance request in its first pass,
    and in every later pass one token balance request and nothing else. When
    the API serves a finite sequence of pages of which only the last has an
    empty or absent key, the loop makes one pass for each page, ends after
    the last, and has not ended before; when every page has a key, the loop
    has not ended after any number of passes. *)
Theorem pagination_follows_the_page_key
    (chainId : Z) (address : string) (rpcPublicClient : SplitsPublicClient) :
  isAlchemyPublicClient rpcPublicClient = true →
  (∀ fuel run,
     fetchContractBalancesWithAlchemy fuel chainId address rpcPublicClient = Some run →
     ∃ cursors,
       requests run = TokenBalancesRequest address None
                        :: NativeBalanceRequest address
                        :: map (TokenBalancesRequest address) cursors ∧
       Forall (fun cursor => truthy cursor = true) cursors ∧
       iterations run = S (length cursors)) ∧
  (∀ earlier last ethBalance fuel,
     (∀ j page, (earlier ++ [last]) !! j = Some page →
        alchemy_getTokenBalances rpcPublicClient j address
          (cursorFor None (earlier ++ [last]) j) = Ok page) →
     getBalance rpcPublicClient address = Ok ethBalance →
     (∀ page, page ∈ earlier ++ [last] →
        succeeds (writeTokenBalances page rpcPublicClient ∅)) →
     Forall (fun page => truthy (pageKey page) = true) earlier →
     truthy (pageKey last) = false →
     ((fuel ≤ length earlier)%nat →
      fetchContractBalancesWithAlchemy fuel chainId address rpcPublicClient = None) ∧
     ((length earlier < fuel)%nat →
      ∃ balances,
        fetchContractBalancesWithAlchemy fuel chainId address rpcPublicClient
        = Some {| requests :=
                    TokenBalancesRequest address None
                      :: NativeBalanceRequest address
                      :: map (fun page => TokenBalancesRequest address (pageKey page))
                           earlier;
                  iterations := length (earlier ++ [last]);
                  completed := Ok balances |})) ∧
  (∀ (pages : nat → TokenBalances) ethBalance fuel,
     (∀ j, alchemy_getTokenBalances rpcPublicClient j address
             (match j with O => None | S j' => pageKey (pages j') end)
           = Ok (pages j)) →
     getBalance rpcPublicClient address = Ok ethBalance →
     (∀ j, succeeds (writeTokenBalances (pages j) rpcPublicClient ∅)) →
     (∀ j, truthy (pageKey (pages j)) = true) →
     fetchContractBalancesWithAlchemy fuel chainId address rpcPublicClient = None).
Proof.
  intros Halchemy. unfold fetchContractBalancesWithAlchemy. rewrite Halchemy. simpl.
  split; [|split].
  - intros fuel run Hrun.
    apply doWhile_requests in Hrun as (cursors & Hreq & Hcursors & Hiterations).
    exists cursors. done.
  - intros earlier last ethBalance fuel Hapi Hnative Hwrite Hkeys Hlast.
    destruct (doWhile_finite chainId address rpcPublicClient ethBalance earlier last
                0 (Some "") ∅ [] fuel) as [Hout Hin]; try done.
    split; [exact Hout|].
    intros Hfuel. destruct (Hin Hfuel) as [balances ->]. exists balances.
    f_equal. f_equal. rewrite length_app. simpl. lia.
  - intros pages ethBalance fuel Hapi Hnative Hwrite Hkeys.
    by eapply doWhile_endless.
Qed.

(** The account operation uses the tokens it is given as keys, spelled as
    they are given. *)
Lemma fetchActiveBalances_keys_as_given chainId accountAddress publicClient
    fullTokenList balances key :
  fetchActiveBalances chainId accountAddress publicClient fullTokenList = Ok balances →
  is_Some (balances !! key) → key ∈ fullTokenList.
Proof.
  unfold fetchActiveBalances.
  destruct (fetchTokenData _ publicClient) as [tokenData|e]; [|done].
  rewrite bind_Ok_l.
  destruct (multicall publicClient _) as [response|e]; [|done]. rewrite bind_Ok_l.
  intros Hrun. revert key.
  eapply (forEachIndexed_invariant
            (fun acc : FormattedTokenBalances =>
               ∀ key, is_Some (acc !! key) → key ∈ fullTokenList));
    [| |exact Hrun].
  - intros x index acc acc' Hx Hacc Hcall key.
    destruct (balanceCallback_writesOwnKey _ _ _ _ _ _ _ Hcall) as [->|[entry ->]];
      [by apply Hacc|].
    destruct (decide (x = key)) as [<-|Hne]; [done|].
    rewrite lookup_insert_ne by done. apply Hacc.
  - by intros key [? ?%lookup_empty_Some].
Qed.

End Balances.

(** ** Worked examples

    The properties above at the sample data, with [decimalRendering] for the
    formatter and [sampleChains] for the table of chains. *)

Lemma sample_inputs_agree :
  agreeOnMetadata (concat [[ ({[DAI := daiBalance 5]} : FormattedTokenBalances) ];
                           [ {[DAI := daiBalance 7]} ]]).
Proof.
  intros input1 input2 key entry1 entry2 Hin1 Hin2 Hlookup1 Hlookup2.
  simpl in Hin1, Hin2.
  apply elem_of_cons in Hin1 as [->|Hin1]; [|apply list_elem_of_singleton in Hin1 as ->];
    apply elem_of_cons in Hin2 as [->|Hin2];
    try (apply list_elem_of_singleton in Hin2 as ->);
    apply lookup_singleton_Some in Hlookup1 as [_ <-];
    apply lookup_singleton_Some in Hlookup2 as [_ <-]; done.
Qed.

(** C2 at two inputs that hold DAI: merged in either order, or merged one by
    one first, they give the same mapping. *)
Lemma merge_commutative_associative_witness :
  mergeFormattedTokenBalances decimalRendering
    [ {[DAI := daiBalance 7]}; {[DAI := daiBalance 5]} ]
  = mergeFormattedTokenBalances decimalRendering
      (concat [[ {[DAI := daiBalance 5]} ]; [ {[DAI := daiBalance 7]} ]]) ∧
  mergeFormattedTokenBalances decimalRendering
    (mergeFormattedTokenBalances decimalRendering
       <$> [[ {[DAI := daiBalance 5]} ]; [ {[DAI := daiBalance 7]} ]])
  = mergeFormattedTokenBalances decimalRendering
      (concat [[ {[DAI := daiBalance 5]} ]; [ {[DAI := daiBalance 7]} ]]).
Proof.
  apply (merge_commutative_associative decimalRendering
           [[ {[DAI := daiBalance 5]} ]; [ {[DAI := daiBalance 7]} ]]
           [ {[DAI := daiBalance 7]}; {[DAI := daiBalance 5]} ]).
  - exact sample_inputs_agree.
  - simpl. apply perm_swap.
Defined.

Lemma DAI_resolved : resolved sampleChains 1 sampleTokenData DAI "DAI" 18.
Proof.
  right. split; [done|].
  eexists. split; [apply lookup_singleton_eq|done].
Qed.

(** C3 as stated fails: version 1 of the split reducer, given USDC with the
    raw amount 5 and no metadata for it, writes no entry, though 5 exceeds 2;
    nor does the account reducer write one. *)
Lemma unresolved_token_gets_no_entry :
  (2 < 5) ∧
  processSplitBalanceMulticallResponse decimalRendering sampleChains splitV1 1
    [USDC] sampleTokenData [bigintResult 5] ∅ = Ok ∅ ∧
  processBalanceMulticallResponse decimalRendering sampleChains 1
    [USDC] sampleTokenData [bigintResult 5] ∅ = Ok ∅.
Proof. split; [lia|]. split; reflexivity. Qed.

(** The dust threshold on a version 1 split holding DAI: the raw amounts 0, 1
    and 2 leave no entry, 3 does; the account reducer records 0. *)
Lemma dust_threshold :
  processSplitBalanceMulticallResponse decimalRendering sampleChains splitV1 1
    [DAI] sampleTokenData [bigintResult 0] ∅ = Ok ∅ ∧
  processSplitBalanceMulticallResponse decimalRendering sampleChains splitV1 1
    [DAI] sampleTokenData [bigintResult 1] ∅ = Ok ∅ ∧
  processSplitBalanceMulticallResponse decimalRendering sampleChains splitV1 1
    [DAI] sampleTokenData [bigintResult 2] ∅ = Ok ∅ ∧
  processSplitBalanceMulticallResponse decimalRendering sampleChains splitV1 1
    [DAI] sampleTokenData [bigintResult 3] ∅ = Ok {[DAI := daiBalance 3]} ∧
  processBalanceMulticallResponse decimalRendering sampleChains 1
    [DAI] sampleTokenData [bigintResult 0] ∅ = Ok {[DAI := daiBalance 0]}.
Proof. repeat split; reflexivity. Qed.

(** C3, amended, at DAI with the raw amounts 3 and 2 on a version 2 split. *)
Lemma dust_filter_on_split_balances_only_witness :
  processSplitBalanceMulticallResponse decimalRendering sampleChains splitV2 1
    (take 1 [DAI]) sampleTokenData [pairResult 2 1] ∅
  = Ok (<[DAI := balanceEntry decimalRendering 3 "DAI" 18]> ∅) ∧
  processSplitBalanceMulticallResponse decimalRendering sampleChains splitV2 1
    (take 1 [DAI]) sampleTokenData [pairResult 1 1] ∅
  = Ok ∅.
Proof.
  split.
  - apply (proj1 (dust_filter_on_split_balances_only decimalRendering sampleChains
                    splitV2 1 [DAI] sampleTokenData [pairResult 2 1] ∅ ∅ 0 DAI
                    (pairResult 2 1) 3 "DAI" 18 eq_refl eq_refl DAI_resolved));
      reflexivity.
  - apply (proj1 (dust_filter_on_split_balances_only decimalRendering sampleChains
                    splitV2 1 [DAI] sampleTokenData [pairResult 1 1] ∅ ∅ 0 DAI
                    (pairResult 1 1) 2 "DAI" 18 eq_refl eq_refl DAI_resolved));
      reflexivity.
Defined.

(** C4 at the failing input: the native token on a version 2 split whose
    call failed. *)
Lemma splitV2_undefined_result_raises_witness :
  processSplitBalanceMulticallResponse decimalRendering sampleChains splitV2 1
    [zeroAddress] ∅ [failedResult] ∅ = Throw TypeError.
Proof.
  apply (splitV2_undefined_result_raises decimalRendering sampleChains 1
           [zeroAddress] ∅ [failedResult] ∅ ∅ 0 zeroAddress failedResult);
    reflexivity.
Defined.

(** C5 as stated fails: DAI is listed twice, the result of index 1 is
    undefined, and the account reducer returns an entry for DAI, the one of
    index 0; on a version 2 split the undefined result is an error. *)
Lemma undefined_result_beside_defined_one :
  [DAI; DAI] !! 1%nat = Some DAI ∧
  result failedResult = None ∧
  processBalanceMulticallResponse decimalRendering sampleChains 1
    [DAI; DAI] sampleTokenData [bigintResult 5; failedResult] ∅
  = Ok {[DAI := daiBalance 5]} ∧
  processSplitBalanceMulticallResponse decimalRendering sampleChains splitV2 1
    [DAI; DAI] sampleTokenData [pairResult 5 0; failedResult] ∅
  = Throw TypeError.
Proof. repeat split; reflexivity. Qed.

(** C5, amended, at USDC with a failed call beside DAI. *)
Lemma undefined_results_write_nothing_witness :
  (∃ after,
     processBalanceMulticallResponse decimalRendering sampleChains 1 [DAI; USDC]
       sampleTokenData [bigintResult 5; failedResult] ∅ = Ok after ∧
     after !! USDC = None) ∧
  (∃ after,
     processSplitBalanceMulticallResponse decimalRendering sampleChains splitV1 1
       [DAI; USDC] sampleTokenData [bigintResult 5; failedResult] ∅ = Ok after ∧
     after !! USDC = None).
Proof.
  apply (undefined_results_write_nothing decimalRendering sampleChains 1 [DAI; USDC]
           sampleTokenData [bigintResult 5; failedResult] ∅ USDC).
  - reflexivity.
  - intros [|[|i]] data Htoken Hdata; simpl in *.
    + discriminate Htoken.
    + by injection Hdata as <-.
    + discriminate Htoken.
  - reflexivity.
Defined.

(** C6 at DAI, the native sentinel and USDC: the chain answers both calls for
    DAI and only the symbol call for USDC. *)
Lemma fetchTokenData_keeps_resolved_tokens_witness :
  ∃ tokenData,
    fetchTokenData [DAI; zeroAddress; USDC] sampleClient = Ok tokenData ∧
    is_Some (tokenData !! DAI) ∧ tokenData !! USDC = None.
Proof.
  destruct (fetchTokenData_keeps_resolved_tokens [DAI; zeroAddress; USDC] sampleClient
              (map sampleAnswer
                 [ {| target := DAI; abi := erc20Abi;
                      functionName := "symbol"; args := [] |};
                   {| target := DAI; abi := erc20Abi;
                      functionName := "decimals"; args := [] |};
                   {| target := USDC; abi := erc20Abi;
                      functionName := "symbol"; args := [] |};
                   {| target := USDC; abi := erc20Abi;
                      functionName := "decimals"; args := [] |} ]))
    as (tokenData & Hrun & Hspec); [reflexivity|reflexivity|].
  exists tokenData. split; [exact Hrun|]. split.
  - apply (Hspec DAI). exists 0%nat. repeat split; by eexists.
  - destruct (tokenData !! USDC) as [entry|] eqn:Hentry; [|reflexivity].
    assert (is_Some (tokenData !! USDC)) as Hsome by (rewrite Hentry; by eexists).
    apply (Hspec USDC) in Hsome
      as ([|[|index]] & Htoken & _ & [decimals Hdecimals]);
      [discriminate Htoken|discriminate Hdecimals|discriminate Htoken].
Defined.

(** C10 as stated fails: DAI is listed twice on a version 1 split, the last
    occurrence carries dust, and the entry returned is the one computed from
    the first occurrence. *)
Lemma entry_of_earlier_occurrence_survives :
  processSplitBalanceMulticallResponse decimalRendering sampleChains splitV1 1
    [DAI; DAI] sampleTokenData [bigintResult 7; bigintResult 1] ∅
  = Ok {[DAI := daiBalance 7]} ∧
  processSplitBalanceMulticallResponse decimalRendering sampleChains splitV1 1
    [DAI] sampleTokenData [bigintResult 1] ∅
  = Ok ∅.
Proof. split; reflexivity. Qed.

(** C10, amended, at DAI listed three times: the second occurrence is the last
    to yield an entry. *)
Lemma last_writing_occurrence_wins_witness :
  ∃ after,
    processSplitBalanceMulticallResponse decimalRendering sampleChains splitV1 1
      [DAI; DAI; DAI] sampleTokenData
      [bigintResult 7; bigintResult 9; bigintResult 1] ∅ = Ok after ∧
    after !! DAI = Some (daiBalance 9) ∧ NoDup (map_to_list after).*1.
Proof.
  eexists. split; [reflexivity|].
  apply (proj2 (last_writing_occurrence_wins decimalRendering sampleChains 1
                  [DAI; DAI; DAI] sampleTokenData
                  [bigintResult 7; bigintResult 9; bigintResult 1] ∅ 1 DAI
                  (bigintResult 9) eq_refl eq_refl) splitV1).
  - reflexivity.
  - intros [|[|[|j]]] later Hlt Htoken Hlater; simpl in *; try lia.
    + by injection Hlater as <-.
    + discriminate Htoken.
  - reflexivity.
Defined.

Lemma succeeds_checked {A} (m : outcome A) :
  match m with Ok _ => True | Throw _ => False end → succeeds m.
Proof. destruct m; [by eexists | done]. Qed.

Lemma samplePages_written (page : TokenBalances) :
  page ∈ samplePages → succeeds (writeTokenBalances decimalRendering page sampleClient ∅).
Proof.
  unfold samplePages. rewrite !elem_of_cons, elem_of_nil.
  intros [->|[->|[->|[]]]]; apply succeeds_checked; by vm_compute.
Qed.

Lemma samplePages_served j page :
  samplePages !! j = Some page →
  alchemy_getTokenBalances sampleClient j sampleAccount (cursorFor None samplePages j)
  = Ok page.
Proof. intros Hpage. simpl. by rewrite Hpage. Qed.

(** C7 at the three sample pages: three passes, three token balance requests
    and one native balance request, and no end within two passes. *)
Lemma pagination_follows_the_page_key_witness :
  fetchContractBalancesWithAlchemy decimalRendering sampleChains 2 1 sampleAccount
    sampleClient = None ∧
  ∃ balances,
    fetchContractBalancesWithAlchemy decimalRendering sampleChains 5 1 sampleAccount
      sampleClient
    = Some {| requests := [ TokenBalancesRequest sampleAccount None;
                            NativeBalanceRequest sampleAccount;
                            TokenBalancesRequest sampleAccount (Some "cursorA");
                            TokenBalancesRequest sampleAccount (Some "cursorB") ];
              iterations := 3;
              completed := Ok balances |}.
Proof.
  destruct (pagination_follows_the_page_key decimalRendering sampleChains 1
              sampleAccount sampleClient eq_refl) as (_ & Hfinite & _).
  split.
  - apply (Hfinite [firstPage; secondPage] lastPage 1000000000000000000 2%nat);
      [apply samplePages_served|reflexivity|apply samplePages_written
      |repeat constructor|reflexivity|simpl; lia].
  - apply (Hfinite [firstPage; secondPage] lastPage 1000000000000000000 5%nat);
      [apply samplePages_served|reflexivity|apply samplePages_written
      |repeat constructor|reflexivity|simpl; lia].
Defined.

Lemma sample_account_balances :
  fetchActiveBalances decimalRendering sampleChains 5 sampleAccount sampleClient
    [zeroAddress; DAI]
  = Ok {[ zeroAddress := nativeBalance "ETH"; DAI := daiBalance 2500000000000000000 ]}.
Proof. vm_compute. reflexivity. Qed.

Lemma sample_split_balances :
  fetchSplitActiveBalances decimalRendering sampleChains sampleSplitMain
    sampleNativeToken splitV1 5 sampleAccount sampleClient [lowerCase DAI]
  = Ok {[ DAI := daiBalance 400 ]}.
Proof. vm_compute. reflexivity. Qed.

Lemma sample_alchemy_balances :
  fetchContractBalancesWithAlchemy decimalRendering sampleChains 5 137 sampleAccount
    sampleClient
  = Some {| requests := [ TokenBalancesRequest sampleAccount None;
                          NativeBalanceRequest sampleAccount;
                          TokenBalancesRequest sampleAccount (Some "cursorA");
                          TokenBalancesRequest sampleAccount (Some "cursorB") ];
            iterations := 3;
            completed := Ok {[ zeroAddress := nativeBalance "MATIC";
                               DAI := daiBalance 2500000000000000000 ]} |}.
Proof. vm_compute. reflexivity. Qed.

(** C8 at the balances that the three operations return for the sample
    account, on an unregistered chain and on Polygon. *)
Lemma native_entry_comes_from_the_chain_witness :
  nativeRecord sampleChains 5
    {[ zeroAddress := nativeBalance "ETH"; DAI := daiBalance 2500000000000000000 ]} ∧
  nativeRecord sampleChains 5 {[ DAI := daiBalance 400 ]} ∧
  nativeRecord sampleChains 137
    {[ zeroAddress := nativeBalance "MATIC"; DAI := daiBalance 2500000000000000000 ]}.
Proof.
  split; [|split].
  - destruct (native_entry_comes_from_the_chain decimalRendering sampleChains
                sampleSplitMain sampleNativeToken 5) as (Haccount & _).
    exact (Haccount _ _ _ _ sample_account_balances).
  - destruct (native_entry_comes_from_the_chain decimalRendering sampleChains
                sampleSplitMain sampleNativeToken 5) as (_ & Hsplit & _).
    exact (Hsplit _ _ _ _ _ sample_split_balances).
  - destruct (native_entry_comes_from_the_chain decimalRendering sampleChains
                sampleSplitMain sampleNativeToken 137) as (_ & _ & Halchemy & _).
    exact (Halchemy _ _ _ _ _ sample_alchemy_balances eq_refl).
Defined.

(** C9, where the code departs from it: the account operation is handed DAI
    in lower case and returns the balance under that spelling, which is not
    the spelling of [getAddress]; the split operation, handed the same list,
    returns it under the checksummed spelling. *)
Theorem fetchActiveBalances_keeps_the_spelling_it_is_given :
  fetchActiveBalances decimalRendering sampleChains 1 sampleAccount sampleClient
    [lowerCase DAI]
  = Ok {[ lowerCase DAI := daiBalance 2500000000000000000 ]} ∧
  getAddress (lowerCase DAI) = Ok DAI ∧
  lowerCase DAI ≠ DAI ∧
  fetchSplitActiveBalances decimalRendering sampleChains sampleSplitMain
    sampleNativeToken splitV1 1 sampleAccount sampleClient [lowerCase DAI]
  = Ok {[ DAI := daiBalance 400 ]}.
Proof.
  split; [vm_compute; reflexivity|]. split; [vm_compute; reflexivity|].
  split; [by vm_compute|]. vm_compute. reflexivity.
Qed.
